(** * promise-queue-rate-limited: a rate limited queue of deferred tasks

    A shallow embedding of [src/promise-queue-rate-limited.js] (module
    [Main]) and of the other variant of the same file kept in the
    repository (module [Legacy]), together with the properties of the
    scheduling engine.

    Modelling decisions, all taken from the JavaScript source:

    - A JavaScript number is a [number]: an exact rational, or one of
      [Infinity], [-Infinity] and [NaN].  Rounding of IEEE doubles is not
      modelled; the special values are, because [1000 / undefined] and
      [1000 / 0] produce them.
    - [Date.now()] is an integer number of milliseconds, a [Z], and is an
      input of every operation that reads the clock.
    - A function object is identified by a reference [fnref]; [===] on
      functions is equality of references.  What a function does when it
      is called is given by a program environment [prog]: a sequence of
      calls into the queue it was registered with, followed by a returned
      or a thrown value.
    - The promise created by [add] is an index into a store of promise
      states; its [resolve] and [reject] functions settle that index, and
      do nothing once it is settled.  Settlement values are not thenables.
    - The host keeps the list of outstanding timeouts; [setTimeout] adds
      one, [clearInterval] removes one, and the host fires one by removing
      it and running its callback.  The instant at which a timeout fires
      is an input; the model does not tie it to the delay.
    - The optional [logger] is left out ([undefined]). *)

From Stdlib Require Import ZArith QArith Lia Lqa Bool.
From stdpp Require Import base list list_numbers.

(** ** JavaScript numbers *)

Inductive number : Type :=
  | Fin (q : Q)
  | PosInf
  | NegInf
  | NaN.

Definition of_Z (z : Z) : number := Fin (inject_Z z).

Definition num_zero : number := Fin 0.

(** [a / b]; the divisor zero is the positive zero. *)
Definition num_div (a b : number) : number :=
  match a, b with
  | NaN, _ => NaN
  | _, NaN => NaN
  | Fin x, Fin y =>
      if Qeq_bool y 0
      then (if Qeq_bool x 0 then NaN
            else if Qle_bool 0 x then PosInf else NegInf)
      else Fin (Qred (x / y))
  | Fin _, PosInf => Fin 0
  | Fin _, NegInf => Fin 0
  | PosInf, Fin y => if Qle_bool 0 y then PosInf else NegInf
  | NegInf, Fin y => if Qle_bool 0 y then NegInf else PosInf
  | _, _ => NaN
  end.

(** [a - b]. *)
Definition num_sub (a b : number) : number :=
  match a, b with
  | NaN, _ => NaN
  | _, NaN => NaN
  | Fin x, Fin y => Fin (Qred (x - y))
  | Fin _, PosInf => NegInf
  | Fin _, NegInf => PosInf
  | PosInf, PosInf => NaN
  | NegInf, NegInf => NaN
  | PosInf, _ => PosInf
  | NegInf, _ => NegInf
  end.

(** [a > b]; every comparison with [NaN] is false. *)
Definition num_gt (a b : number) : bool :=
  match a, b with
  | NaN, _ => false
  | _, NaN => false
  | Fin x, Fin y => negb (Qle_bool x y)
  | PosInf, PosInf => false
  | PosInf, _ => true
  | _, PosInf => false
  | NegInf, _ => false
  | Fin _, NegInf => true
  end.

(** [a >= b]. *)
Definition num_ge (a b : number) : bool :=
  match a, b with
  | NaN, _ => false
  | _, NaN => false
  | Fin x, Fin y => Qle_bool y x
  | PosInf, _ => true
  | _, NegInf => true
  | _, _ => false
  end.

(** [Math.max(a, b)]. *)
Definition Math_max (a b : number) : number :=
  match a, b with
  | NaN, _ => NaN
  | _, NaN => NaN
  | _, _ => if num_gt a b then a else b
  end.

(** [ToNumber] of an argument that may be [undefined]. *)
Definition to_number (v : option number) : number :=
  match v with
  | Some n => n
  | None => NaN
  end.

(** Equality of numbers as values: rationals up to [Qeq]. *)
Definition num_eq (a b : number) : Prop :=
  match a, b with
  | Fin x, Fin y => (x == y)%Q
  | PosInf, PosInf => True
  | NegInf, NegInf => True
  | NaN, NaN => True
  | _, _ => False
  end.

(** ** Tasks, promises, timers *)

(** The identity of a function object. *)
Definition fnref : Type := nat.

(** A value returned or thrown by a task. *)
Definition value : Type := Z.

Inductive outcome : Type :=
  | Returns (v : value)
  | Throws (e : value).

(** The public methods of the queue, as a task or a caller invokes them. *)
Inductive call : Type :=
  | Start
  | Stop
  | Add (f : fnref) (append : bool)
  | Append (f : fnref)
  | Prepend (f : fnref)
  | Remove (f : fnref).

(** What calling a function does: calls into the queue, then a result. *)
Record body : Type := mkBody {
  calls : list call;
  result : outcome
}.

Inductive PromiseState : Type :=
  | Pending
  | Fulfilled (v : value)
  | Rejected (e : value).

(** [{task: task, resolve: resolve, reject: reject}]: [resolve] and
    [reject] are the settlement functions of the promise [promise]. *)
Record TaskItem : Type := mkItem {
  task : fnref;
  promise : nat
}.

(** An outstanding timeout of the host. *)
Record Timer : Type := mkTimer {
  handle : nat;
  delay : number
}.

(** One call of a task by the engine, as an observer records it. *)
Record Execution : Type := mkExecution {
  ex_task : fnref;
  ex_promise : nat;
  ex_result : outcome;
  ex_active : bool;
  ex_time : Z
}.

(** The fields of a [PromiseQueue] object. *)
Record PromiseQueue : Type := mkQueue {
  maxCallsPerSecond : number;
  tasks : list TaskItem;
  isActive : bool;
  jobIntervalMillis : number;
  lastTaskTimestamp : option Z;
  currentTaskTimeoutId : option nat
}.

(** The queue object together with the host state it acts on. *)
Record World : Type := mkWorld {
  queue : PromiseQueue;
  timers : list Timer;
  nextHandle : nat;
  promises : list PromiseState;
  executed : list Execution
}.

#[global] Instance fnref_eq_dec : EqDecision fnref := Nat.eq_dec.

(** *** Field updates *)

Definition set_tasks (ts : list TaskItem) (q : PromiseQueue) : PromiseQueue :=
  mkQueue (maxCallsPerSecond q) ts (isActive q) (jobIntervalMillis q)
          (lastTaskTimestamp q) (currentTaskTimeoutId q).

Definition set_isActive (b : bool) (q : PromiseQueue) : PromiseQueue :=
  mkQueue (maxCallsPerSecond q) (tasks q) b (jobIntervalMillis q)
          (lastTaskTimestamp q) (currentTaskTimeoutId q).

Definition set_lastTaskTimestamp (t : option Z) (q : PromiseQueue) : PromiseQueue :=
  mkQueue (maxCallsPerSecond q) (tasks q) (isActive q) (jobIntervalMillis q)
          t (currentTaskTimeoutId q).

Definition set_currentTaskTimeoutId (h : option nat) (q : PromiseQueue) : PromiseQueue :=
  mkQueue (maxCallsPerSecond q) (tasks q) (isActive q) (jobIntervalMillis q)
          (lastTaskTimestamp q) h.

Definition with_queue (f : PromiseQueue -> PromiseQueue) (w : World) : World :=
  mkWorld (f (queue w)) (timers w) (nextHandle w) (promises w) (executed w).

(** *** The host *)

(** [setTimeout(callback, d)]: a fresh handle, and one more outstanding
    timeout.  Every callback the queue registers is the same closure over
    the queue, so a timeout is its handle and its delay. *)
Definition setTimeout (d : number) (w : World) : World * nat :=
  (mkWorld (queue w) (timers w ++ [mkTimer (nextHandle w) d])
           (S (nextHandle w)) (promises w) (executed w),
   nextHandle w).

(** [clearInterval(h)] (for the host the same as [clearTimeout(h)]). *)
Definition clearInterval (h : nat) (w : World) : World :=
  mkWorld (queue w) (filter (fun t => handle t <> h) (timers w))
          (nextHandle w) (promises w) (executed w).

(** [new Promise(executor)]: a fresh pending promise. *)
Definition newPromise (w : World) : World * nat :=
  (mkWorld (queue w) (timers w) (nextHandle w) (promises w ++ [Pending])
           (executed w),
   length (promises w)).

(** Settling a promise: only a pending promise changes. *)
Definition settle (p : nat) (s : PromiseState) (w : World) : World :=
  match promises w !! p with
  | Some Pending =>
      mkWorld (queue w) (timers w) (nextHandle w) (<[p := s]> (promises w))
              (executed w)
  | _ => w
  end.

Definition resolve (p : nat) (v : value) : World -> World := settle p (Fulfilled v).
Definition reject (p : nat) (e : value) : World -> World := settle p (Rejected e).

Definition record_execution (x : Execution) (w : World) : World :=
  mkWorld (queue w) (timers w) (nextHandle w) (promises w) (executed w ++ [x]).

(** ** The queue of [src/promise-queue-rate-limited.js] *)

Module Main.

(** [new PromiseQueue(maxCallsPerSecond)]: the stored rate is defaulted,
    the interval divides by the argument as it was passed. *)
Definition PromiseQueue_new (maxCallsPerSecond : option number) : World :=
  mkWorld
    (mkQueue (match maxCallsPerSecond with None => Fin 1 | Some r => r end)
             []
             false
             (num_div (Fin 1000) (to_number maxCallsPerSecond))
             None
             None)
    [] 1 [] [].

Definition getMaxCallsPerSecond (w : World) : number := maxCallsPerSecond (queue w).
Definition isStarted (w : World) : bool := isActive (queue w).
Definition isStopped (w : World) : bool := negb (isStarted w).
Definition isEmpty (w : World) : bool := Nat.eqb (length (tasks (queue w))) 0.
Definition isNotEmpty (w : World) : bool := negb (isEmpty w).
Definition getQueueSize (w : World) : nat := length (tasks (queue w)).

(** [scheduleNext(timeoutMillisOverride)]. *)
Definition scheduleNext (timeoutMillisOverride : number) (w : World) : World :=
  if isEmpty w then with_queue (set_currentTaskTimeoutId None) w
  else
    let '(w1, h) := setTimeout timeoutMillisOverride w in
    with_queue (set_currentTaskTimeoutId (Some h)) w1.

(** [updateTaskSchedule()], reading the clock as [now].  A timestamp is
    tested for truthiness, so the timestamp zero counts as absent. *)
Definition updateTaskSchedule (now : Z) (w : World) : World :=
  if isEmpty w || isStopped w then w
  else
    match currentTaskTimeoutId (queue w) with
    | Some _ => w
    | None =>
        match lastTaskTimestamp (queue w) with
        | Some last =>
            if Z.eqb last 0 then scheduleNext num_zero w
            else
              let passedTime := of_Z (now - last) in
              if num_gt passedTime (jobIntervalMillis (queue w))
              then scheduleNext (jobIntervalMillis (queue w)) w
              else scheduleNext
                     (Math_max num_zero
                        (num_sub (jobIntervalMillis (queue w)) passedTime)) w
        | None => scheduleNext num_zero w
        end
    end.

(** [start()]. *)
Definition start (now : Z) (w : World) : World * bool :=
  if isActive (queue w) then (w, false)
  else (updateTaskSchedule now (with_queue (set_isActive true) w), true).

(** [stop()]. *)
Definition stop (w : World) : World :=
  if isActive (queue w) then
    let w1 := with_queue (set_isActive false) w in
    match currentTaskTimeoutId (queue w1) with
    | Some h =>
        with_queue (set_lastTaskTimestamp None)
          (with_queue (set_currentTaskTimeoutId None) (clearInterval h w1))
    | None => w1
    end
  else w.

(** [add(task, append)]: the executor of the promise runs at once and
    stores the new item, then the schedule is updated. *)
Definition add (f : fnref) (append : bool) (now : Z) (w : World) : World * nat :=
  let '(w1, p) := newPromise w in
  let newTaskItem := mkItem f p in
  let w2 :=
    if isEmpty w1 || append
    then with_queue (fun q => set_tasks (tasks q ++ [newTaskItem]) q) w1
    else with_queue (fun q => set_tasks (newTaskItem :: tasks q) q) w1 in
  (updateTaskSchedule now w2, p).

Definition append (f : fnref) : Z -> World -> World * nat := add f true.
Definition prepend (f : fnref) : Z -> World -> World * nat := add f false.

(** The loop of [remove]: [i] runs from [length - 1] down to [0]; the
    argument [k] is [i + 1].  [splice(i, 1)] deletes index [i].  The index
    is always within the array ([remove_loop_filter] below never meets the
    last case), where JavaScript would raise on [undefined.task]. *)
Fixpoint remove_loop (f : fnref) (k : nat) (ts : list TaskItem) (removedItems : nat)
  : list TaskItem * nat :=
  match k with
  | O => (ts, removedItems)
  | S i =>
      match ts !! i with
      | Some it =>
          if decide (task it = f)
          then remove_loop f i (delete i ts) (S removedItems)
          else remove_loop f i ts removedItems
      | None => remove_loop f i ts removedItems
      end
  end.

(** [remove(task)]. *)
Definition remove (f : fnref) (w : World) : World * nat :=
  if isEmpty w then (w, 0)
  else
    let '(ts, removedItems) :=
      remove_loop f (length (tasks (queue w))) (tasks (queue w)) 0 in
    (with_queue (set_tasks ts) w, removedItems).

(** A call of a public method, its return value dropped. *)
Definition do_call (now : Z) (w : World) (c : call) : World :=
  match c with
  | Start => fst (start now w)
  | Stop => stop w
  | Add f a => fst (add f a now w)
  | Append f => fst (append f now w)
  | Prepend f => fst (prepend f now w)
  | Remove f => fst (remove f w)
  end.

Section Engine.

(** What each function object does when it is called. *)
Variable prog : fnref -> body.

(** [processNextTask()]: [shift()] the head; when there is one, call it
    and settle its promise with what it returned or threw. *)
Definition processNextTask (now : Z) (w : World) : World :=
  match tasks (queue w) with
  | [] => w
  | nextTaskItem :: rest =>
      let w1 := with_queue (set_tasks rest) w in
      let b := prog (task nextTaskItem) in
      let w2 := foldl (do_call now) w1 (calls b) in
      let w3 :=
        record_execution
          (mkExecution (task nextTaskItem) (promise nextTaskItem) (result b)
                       (isActive (queue w1)) now) w2 in
      match result b with
      | Returns v => resolve (promise nextTaskItem) v w3
      | Throws e => reject (promise nextTaskItem) e w3
      end
  end.

(** The callback given to [setTimeout] by [scheduleNext]. *)
Definition onTimeout (now : Z) (w : World) : World :=
  let w1 := with_queue (set_lastTaskTimestamp (Some now)) w in
  let w2 := processNextTask now w1 in
  scheduleNext (jobIntervalMillis (queue w2)) w2.

(** The host fires the outstanding timeout [h]. *)
Definition fire (h : nat) (now : Z) (w : World) : World :=
  if bool_decide (h ∈ fmap handle (timers w))
  then onTimeout now (clearInterval h w)
  else w.

(** The host fires the oldest outstanding timeout, if there is one. *)
Definition fireNext (now : Z) (w : World) : World :=
  match timers w with
  | t :: _ => fire (handle t) now w
  | [] => w
  end.

(** What can happen to a queue: a caller invokes a method, or the host
    fires a timeout. *)
Inductive event : Type :=
  | Call (c : call) (now : Z)
  | Fire (h : nat) (now : Z).

Definition step (w : World) (e : event) : World :=
  match e with
  | Call c now => do_call now w c
  | Fire h now => fire h now w
  end.

Definition run (w : World) (es : list event) : World := foldl step w es.

End Engine.

End Main.

(** ** The other variant of the file kept in the repository

    Here [updateTaskSchedule] runs the head task itself, inside [add] or
    [start], so a task that calls back into the queue would re-enter it.
    This module models tasks that do not: calling a function yields its
    result, given by [behaviour]. *)

Module Legacy.

Definition PromiseQueue_new (maxCallsPerSecond : option number) : World :=
  mkWorld
    (mkQueue (match maxCallsPerSecond with None => Fin 1 | Some r => r end)
             []
             false
             (num_div (Fin 1000) (to_number maxCallsPerSecond))
             None
             None)
    [] 1 [] [].

Definition isStarted (w : World) : bool := isActive (queue w).
Definition isStopped (w : World) : bool := negb (isStarted w).
Definition isEmpty (w : World) : bool := Nat.eqb (length (tasks (queue w))) 0.
Definition getQueueSize (w : World) : nat := length (tasks (queue w)).

Section Engine.

Variable behaviour : fnref -> outcome.

(** [processNextTask()]: the timestamp is written between the call and
    the resolution, so a task that throws leaves it as it was. *)
Definition processNextTask (now : Z) (w : World) : World :=
  match tasks (queue w) with
  | [] => w
  | nextTaskItem :: rest =>
      let w1 := with_queue (set_tasks rest) w in
      let w2 :=
        record_execution
          (mkExecution (task nextTaskItem) (promise nextTaskItem)
                       (behaviour (task nextTaskItem))
                       (isActive (queue w1)) now) w1 in
      match behaviour (task nextTaskItem) with
      | Returns v =>
          resolve (promise nextTaskItem) v
            (with_queue (set_lastTaskTimestamp (Some now)) w2)
      | Throws e => reject (promise nextTaskItem) e w2
      end
  end.

(** The delay [scheduleNext] passes to [setTimeout]:
    [override && override > 0 ? override : jobIntervalMillis]. *)
Definition timeoutMillis (timeoutMillisOverride : option number) (w : World) : number :=
  match timeoutMillisOverride with
  | Some d => if num_gt d num_zero then d else jobIntervalMillis (queue w)
  | None => jobIntervalMillis (queue w)
  end.

(** [scheduleNext(timeoutMillisOverride)]: nothing looks at the handle
    already stored. *)
Definition scheduleNext (timeoutMillisOverride : option number) (w : World) : World :=
  if isEmpty w then w
  else
    let '(w1, h) := setTimeout (timeoutMillis timeoutMillisOverride w) w in
    with_queue (set_currentTaskTimeoutId (Some h)) w1.

(** [updateTaskSchedule()]; [Date.now() - null] is [Date.now()]. *)
Definition updateTaskSchedule (now : Z) (w : World) : World :=
  if isEmpty w || isStopped w then w
  else
    let sinceLastInterval :=
      of_Z (now - match lastTaskTimestamp (queue w) with
                  | Some last => last
                  | None => 0
                  end) in
    if match lastTaskTimestamp (queue w) with None => true | Some _ => false end
       || num_gt sinceLastInterval (jobIntervalMillis (queue w))
    then scheduleNext None (processNextTask now w)
    else scheduleNext
           (Some (num_sub (jobIntervalMillis (queue w)) sinceLastInterval)) w.

Definition start (now : Z) (w : World) : World * bool :=
  if isActive (queue w) then (w, false)
  else (updateTaskSchedule now (with_queue (set_isActive true) w), true).

Definition stop (w : World) : World :=
  if isActive (queue w) then
    let w1 := with_queue (set_isActive false) w in
    match currentTaskTimeoutId (queue w1) with
    | Some h =>
        with_queue (set_lastTaskTimestamp None)
          (with_queue (set_currentTaskTimeoutId None) (clearInterval h w1))
    | None => w1
    end
  else w.

Definition add (f : fnref) (append : bool) (now : Z) (w : World) : World * nat :=
  let '(w1, p) := newPromise w in
  let newTaskItem := mkItem f p in
  let w2 :=
    if isEmpty w1 || append
    then with_queue (fun q => set_tasks (tasks q ++ [newTaskItem]) q) w1
    else with_queue (fun q => set_tasks (newTaskItem :: tasks q) q) w1 in
  (updateTaskSchedule now w2, p).

Definition append (f : fnref) : Z -> World -> World * nat := add f true.
Definition prepend (f : fnref) : Z -> World -> World * nat := add f false.

(** The callback given to [setTimeout]. *)
Definition onTimeout (now : Z) (w : World) : World :=
  with_queue (set_lastTaskTimestamp (Some now)) (processNextTask now w).

Definition fire (h : nat) (now : Z) (w : World) : World :=
  if bool_decide (h ∈ fmap handle (timers w))
  then onTimeout now (clearInterval h w)
  else w.

End Engine.

End Legacy.

(** ** Runs, the specification's wait, and invariants *)

(** [append] called for each function of [fs], in order, at time [now]. *)
Definition appendAll (fs : list fnref) (now : Z) (w : World) : World :=
  foldl (fun w f => fst (Main.append f now w)) w fs.

(** [prepend] called for each function of [fs], in order, at time [now]. *)
Definition prependAll (fs : list fnref) (now : Z) (w : World) : World :=
  foldl (fun w f => fst (Main.prepend f now w)) w fs.

(** The host fires the oldest outstanding timeout once per instant of
    [nows]. *)
Definition fireAll (prog : fnref -> body) (nows : list Z) (w : World) : World :=
  foldl (fun w now => Main.fireNext prog now w) w nows.

(** A world some sequence of events leads to from a new queue. *)
Definition reachable (prog : fnref -> body) (w : World) : Prop :=
  exists (maxCallsPerSecond : option number) (es : list Main.event),
    w = Main.run prog (Main.PromiseQueue_new maxCallsPerSecond) es.

(** An event of a caller that only appends, starts and stops, or of the
    host. *)
Definition append_only (e : Main.event) : bool :=
  match e with
  | Main.Call (Append _) _ => true
  | Main.Call (Add _ true) _ => true
  | Main.Call Start _ => true
  | Main.Call Stop _ => true
  | Main.Fire _ _ => true
  | _ => false
  end.

(** The functions appended by a sequence of events, in order. *)
Definition appended (es : list Main.event) : list fnref :=
  flat_map (fun e => match e with
                     | Main.Call (Append f) _ => [f]
                     | Main.Call (Add f true) _ => [f]
                     | _ => []
                     end) es.

(** A function that does not call back into the queue. *)
Definition plain (prog : fnref -> body) (f : fnref) : Prop :=
  calls (prog f) = [].

(** A function that does not call [stop()] on the queue. *)
Definition never_stops (prog : fnref -> body) (f : fnref) : Prop :=
  Stop ∉ calls (prog f).

(** The state a promise is settled to by a result. *)
Definition settled_as (r : outcome) : PromiseState :=
  match r with
  | Returns v => Fulfilled v
  | Throws e => Rejected e
  end.

(** The wait of the specification: zero when nothing has run yet or the
    interval has elapsed, otherwise what is left of the interval. *)
Definition spec_wait (intervalMillis : number) (lastExecutionTimestamp : option Z)
    (now : Z) : number :=
  match lastExecutionTimestamp with
  | None => num_zero
  | Some last =>
      let elapsed := of_Z (now - last) in
      if num_ge elapsed intervalMillis then num_zero
      else num_sub intervalMillis elapsed
  end.

(** The promises of the queued items are distinct and pending. *)
Definition queued_pending (w : World) : Prop :=
  NoDup (fmap promise (tasks (queue w))) /\
  Forall (fun it => promises w !! promise it = Some Pending) (tasks (queue w)).

(** [p] is a promise of the store that no queued item holds. *)
Definition outside (p : nat) (w : World) : Prop :=
  p < length (promises w) /\ p ∉ fmap promise (tasks (queue w)).

(** The handle slot of the queue accounts for every outstanding timeout,
    and a stopped queue has none. *)
Definition single_timer (w : World) : Prop :=
  match currentTaskTimeoutId (queue w) with
  | Some h => isActive (queue w) = true /\ exists d, timers w = [mkTimer h d]
  | None => timers w = []
  end.

(** The state in which the callback of a timeout runs a task: the queue
    is active, the timeout that fired is no longer outstanding, and the
    handle slot still holds a handle. *)
Definition in_callback (w : World) : Prop :=
  isActive (queue w) = true /\
  timers w = [] /\
  exists h, currentTaskTimeoutId (queue w) = Some h.


(** A started queue with something queued has a handle in its slot. *)
Definition awake (w : World) : Prop :=
  isActive (queue w) = true -> tasks (queue w) <> [] ->
  currentTaskTimeoutId (queue w) <> None.

(** The instant of an event. *)
Definition time_of (e : Main.event) : Z :=
  match e with
  | Main.Call _ now => now
  | Main.Fire _ now => now
  end.

(** The clock does not run backwards: from [t] on, the instants of the
    events do not decrease. *)
Fixpoint clock_from (t : Z) (es : list Main.event) : Prop :=
  match es with
  | [] => True
  | e :: es' => (t <= time_of e)%Z /\ clock_from (time_of e) es'
  end.

(** The host honours delays: a timeout fires no earlier than its delay
    after the instant at which it was armed.  [arm h] is the instant at
    which the handle [h] was armed; the handles allocated while an event is
    handled are armed at the instant of that event. *)
Fixpoint punctual (prog : fnref -> body) (arm : nat -> Z) (w : World)
    (es : list Main.event) : Prop :=
  match es with
  | [] => True
  | e :: es' =>
      match e with
      | Main.Fire h now =>
          forall t, t ∈ timers w -> handle t = h ->
                    num_ge (of_Z (now - arm h)) (delay t) = true
      | Main.Call _ _ => True
      end /\
      punctual prog
        (fun h => if decide (nextHandle w <= h) then time_of e else arm h)
        (Main.step prog w e) es'
  end.

(** A caller's [stop()]. *)
Definition is_stop (e : Main.event) : bool :=
  match e with
  | Main.Call Stop _ => true
  | _ => false
  end.

(** Consecutive executions are at least [q] milliseconds apart. *)
Definition spaced (q : Q) (xs : list Execution) : Prop :=
  forall l1 x y l2,
    xs = l1 ++ x :: y :: l2 ->
    (inject_Z (ex_time x) + q <= inject_Z (ex_time y))%Q.

(** What the engine keeps between events, at instant [tnow], for the
    interval [q]: one timeout at most; every execution no later than the
    timestamp; and the outstanding timeout due no earlier than one interval
    after the timestamp. *)
Definition paced (q : Q) (arm : nat -> Z) (tnow : Z) (w : World) : Prop :=
  single_timer w /\
  jobIntervalMillis (queue w) = Fin q /\
  (0 < tnow)%Z /\
  (forall t, t ∈ timers w -> handle t < nextHandle w) /\
  spaced q (executed w) /\
  match lastTaskTimestamp (queue w) with
  | Some L =>
      (0 < L <= tnow)%Z /\
      Forall (fun x => (ex_time x <= L)%Z) (executed w) /\
      (forall t, t ∈ timers w ->
                 exists d, delay t = Fin d /\
                           (inject_Z L + q <= inject_Z (arm (handle t)) + d)%Q)
  | None => executed w = []
  end.

(** *** Programs used in the examples *)

(** Every function returns its own reference. *)
Definition returning (f : fnref) : body := mkBody [] (Returns (Z.of_nat f)).

(** Function [0] throws [13]; the others return their reference. *)
Definition throwing_first (f : fnref) : body :=
  match f with
  | O => mkBody [] (Throws 13%Z)
  | _ => returning f
  end.

(** Function [0] calls [stop()] on the queue, then returns. *)
Definition stopping_first (f : fnref) : body :=
  match f with
  | O => mkBody [Stop] (Returns 0%Z)
  | _ => returning f
  end.

(** Function [0] calls [stop()] and [start()] on the queue, then returns. *)
Definition restarting_first (f : fnref) : body :=
  match f with
  | O => mkBody [Stop; Start] (Returns 0%Z)
  | _ => returning f
  end.

(** Function [0] appends function [1] and prepends function [2], then
    returns. *)
Definition appending_first (f : fnref) : body :=
  match f with
  | O => mkBody [Append 1; Prepend 2] (Returns 0%Z)
  | _ => returning f
  end.

(** One task per second; the queue is started, a task is appended and
    run at 5000, and the queue is idle afterwards. *)
Definition idle_after_one : World :=
  Main.run returning (Main.PromiseQueue_new (Some (Fin 1)))
    [Main.Call Start 4000%Z; Main.Call (Append 7) 5000%Z; Main.Fire 1 5000%Z].


(** The other variant, one task per second: started, then three appends
    within the same millisecond. *)
Definition legacy_three_appends : World :=
  let behaviour := fun f => result (returning f) in
  let w0 := fst (Legacy.start behaviour 5000%Z (Legacy.PromiseQueue_new (Some (Fin 1)))) in
  let w1 := fst (Legacy.append behaviour 10 5000%Z w0) in
  let w2 := fst (Legacy.append behaviour 11 5000%Z w1) in
  fst (Legacy.append behaviour 12 5000%Z w2).

(** Three tasks appended, the first of which stops and starts the queue;
    the queue is started and its first timeout fires. *)
Definition restart_inside_task : World :=
  Main.run restarting_first (Main.PromiseQueue_new (Some (Fin 1)))
    [Main.Call (Append 0) 4000%Z; Main.Call (Append 1) 4000%Z;
     Main.Call (Append 2) 4000%Z; Main.Call Start 5000%Z; Main.Fire 1 5000%Z].

(** Two tasks appended, the first of which stops the queue; the queue is
    started and its first timeout fires. *)
Definition stop_inside_task : World :=
  Main.run stopping_first (Main.PromiseQueue_new (Some (Fin 1)))
    [Main.Call (Append 0) 4000%Z; Main.Call (Append 1) 4000%Z;
     Main.Call Start 5000%Z; Main.Fire 1 5000%Z].

(** A task that appends and prepends further tasks has run on a started
    queue. *)
Definition appended_inside_task : World :=
  Main.run appending_first (Main.PromiseQueue_new (Some (Fin 1)))
    [Main.Call Start 4000%Z; Main.Call (Append 0) 5000%Z; Main.Fire 1 5000%Z].

(** The other variant, one task per second: three functions appended to
    the stopped queue. *)
Definition legacy_three_queued : World :=
  let behaviour := fun f => result (returning f) in
  let w1 := fst (Legacy.append behaviour 10 4000%Z (Legacy.PromiseQueue_new (Some (Fin 1)))) in
  let w2 := fst (Legacy.append behaviour 11 4000%Z w1) in
  fst (Legacy.append behaviour 12 4000%Z w2).

(** The other variant, one task per second, started and idle. *)
Definition legacy_started : World :=
  fst (Legacy.start (fun f => result (returning f)) 5000%Z
         (Legacy.PromiseQueue_new (Some (Fin 1)))).

(** A timeout is armed for the only task, which is then removed. *)
Definition armed_then_emptied : World :=
  Main.run returning (Main.PromiseQueue_new (Some (Fin 1)))
    [Main.Call Start 4000%Z; Main.Call (Append 7) 5000%Z; Main.Call (Remove 7) 5000%Z].

(** On a new queue: the function [5] appended, then [6], then [5] twice
    more. *)
Definition same_task_thrice : World :=
  Main.run returning (Main.PromiseQueue_new None)
    [Main.Call (Append 5) 0%Z; Main.Call (Append 6) 0%Z;
     Main.Call (Append 5) 0%Z; Main.Call (Append 5) 0%Z].


(** * Properties *)

(** ** What the scheduling functions leave alone *)

Ltac unfold_schedule :=
  unfold Main.updateTaskSchedule, Main.scheduleNext, Main.isEmpty,
    Main.isStopped, Main.isStarted, setTimeout, with_queue.

Ltac schedule_cases :=
  unfold_schedule; repeat (case_match; simpl in *; try done).

Lemma scheduleNext_frame (d : number) (w : World) :
  tasks (queue (Main.scheduleNext d w)) = tasks (queue w) /\
  promises (Main.scheduleNext d w) = promises w /\
  executed (Main.scheduleNext d w) = executed w /\
  isActive (queue (Main.scheduleNext d w)) = isActive (queue w) /\
  lastTaskTimestamp (queue (Main.scheduleNext d w)) = lastTaskTimestamp (queue w) /\
  jobIntervalMillis (queue (Main.scheduleNext d w)) = jobIntervalMillis (queue w) /\
  maxCallsPerSecond (queue (Main.scheduleNext d w)) = maxCallsPerSecond (queue w).
Proof. schedule_cases. Qed.

Lemma updateTaskSchedule_frame (now : Z) (w : World) :
  tasks (queue (Main.updateTaskSchedule now w)) = tasks (queue w) /\
  promises (Main.updateTaskSchedule now w) = promises w /\
  executed (Main.updateTaskSchedule now w) = executed w /\
  isActive (queue (Main.updateTaskSchedule now w)) = isActive (queue w) /\
  lastTaskTimestamp (queue (Main.updateTaskSchedule now w)) = lastTaskTimestamp (queue w) /\
  jobIntervalMillis (queue (Main.updateTaskSchedule now w)) = jobIntervalMillis (queue w) /\
  maxCallsPerSecond (queue (Main.updateTaskSchedule now w)) = maxCallsPerSecond (queue w).
Proof. schedule_cases. Qed.

Lemma updateTaskSchedule_stopped (now : Z) (w : World) :
  isActive (queue w) = false -> Main.updateTaskSchedule now w = w.
Proof.
  intros H. unfold Main.updateTaskSchedule, Main.isStopped, Main.isStarted.
  rewrite H. simpl. by rewrite orb_true_r.
Qed.

Lemma updateTaskSchedule_armed (now : Z) (w : World) (h : nat) :
  currentTaskTimeoutId (queue w) = Some h -> Main.updateTaskSchedule now w = w.
Proof.
  intros H. unfold Main.updateTaskSchedule. rewrite H. by case_match.
Qed.

Lemma isEmpty_nil (w : World) :
  Main.isEmpty w = true <-> tasks (queue w) = [].
Proof.
  unfold Main.isEmpty. destruct (tasks (queue w)); simpl; split; done.
Qed.

Lemma scheduleNext_arms (d : number) (w : World) :
  tasks (queue w) <> [] ->
  currentTaskTimeoutId (queue (Main.scheduleNext d w)) = Some (nextHandle w) /\
  timers (Main.scheduleNext d w) = timers w ++ [mkTimer (nextHandle w) d] /\
  nextHandle (Main.scheduleNext d w) = S (nextHandle w).
Proof.
  intros Hne. unfold Main.scheduleNext, Main.isEmpty.
  destruct (tasks (queue w)); [done|]. done.
Qed.

Lemma scheduleNext_idle (d : number) (w : World) :
  tasks (queue w) = [] ->
  currentTaskTimeoutId (queue (Main.scheduleNext d w)) = None /\
  timers (Main.scheduleNext d w) = timers w /\
  nextHandle (Main.scheduleNext d w) = nextHandle w.
Proof.
  intros Hnil. unfold Main.scheduleNext, Main.isEmpty. by rewrite Hnil.
Qed.

(** ** The constructor *)

(** C9: constructing with no argument stores the rate 1, yet the interval
    is [1000 / undefined], which is [NaN] and not the 1000 that dividing
    by the stored rate gives. *)
Theorem default_interval_is_NaN :
  Main.getMaxCallsPerSecond (Main.PromiseQueue_new None) = Fin 1 /\
  jobIntervalMillis (queue (Main.PromiseQueue_new None)) = NaN /\
  num_div (Fin 1000) (Main.getMaxCallsPerSecond (Main.PromiseQueue_new None))
    = Fin 1000.
Proof. repeat split. Qed.

(** With a rate given, the stored rate is the argument, the interval is
    1000 divided by it, and the queue is empty, stopped, without
    timestamp and without timeout. *)
Lemma PromiseQueue_new_with_rate (r : number) :
  let w := Main.PromiseQueue_new (Some r) in
  Main.getMaxCallsPerSecond w = r /\
  jobIntervalMillis (queue w) = num_div (Fin 1000) (Main.getMaxCallsPerSecond w) /\
  tasks (queue w) = [] /\
  isActive (queue w) = false /\
  lastTaskTimestamp (queue w) = None /\
  currentTaskTimeoutId (queue w) = None /\
  timers w = [].
Proof. repeat split. Qed.

(** ** The wait computed by [updateTaskSchedule] *)

(** C2: the queue ran its last task at 5000 and is idle; a task appended
    at 7000, two intervals later, is armed with a wait of a whole
    interval, where the specification's wait is zero. *)
Theorem wait_after_long_idle_is_interval :
  isActive (queue idle_after_one) = true /\
  currentTaskTimeoutId (queue idle_after_one) = None /\
  lastTaskTimestamp (queue idle_after_one) = Some 5000%Z /\
  jobIntervalMillis (queue idle_after_one) = Fin 1000 /\
  timers (fst (Main.append 8 7000%Z idle_after_one)) = [mkTimer 2 (Fin 1000)] /\
  spec_wait (Fin 1000) (Some 5000%Z) 7000%Z = Fin 0.
Proof. repeat split. Qed.

(** On an active, non-empty queue with an empty handle slot and a finite
    interval, [updateTaskSchedule] arms exactly one timeout.  Its delay is
    zero when there is no timestamp (or the timestamp is zero); a whole
    interval when more than the interval has passed since the timestamp;
    and otherwise what is left of the interval, which is not negative. *)
Theorem updateTaskSchedule_wait (now : Z) (w : World) (q : Q) :
  isActive (queue w) = true ->
  tasks (queue w) <> [] ->
  currentTaskTimeoutId (queue w) = None ->
  jobIntervalMillis (queue w) = Fin q ->
  exists d : number,
    timers (Main.updateTaskSchedule now w) = timers w ++ [mkTimer (nextHandle w) d] /\
    currentTaskTimeoutId (queue (Main.updateTaskSchedule now w)) = Some (nextHandle w) /\
    match lastTaskTimestamp (queue w) with
    | None => d = Fin 0
    | Some last =>
        (last = 0%Z -> d = Fin 0) /\
        (last <> 0%Z -> (q < inject_Z (now - last))%Q -> d = Fin q) /\
        (last <> 0%Z -> (inject_Z (now - last) <= q)%Q ->
         num_eq d (Fin (q - inject_Z (now - last))) /\ num_ge d num_zero = true)
    end.
Proof.
  intros Hact Hne Hid Hiv.
  unfold Main.updateTaskSchedule, Main.isStopped, Main.isStarted.
  rewrite Hact, Hid, Hiv.
  assert (He : Main.isEmpty w = false).
  { unfold Main.isEmpty. destruct (tasks (queue w)); done. }
  rewrite He. simpl.
  assert (Harm : forall d,
    timers (Main.scheduleNext d w) = timers w ++ [mkTimer (nextHandle w) d] /\
    currentTaskTimeoutId (queue (Main.scheduleNext d w)) = Some (nextHandle w)).
  { intros d. destruct (scheduleNext_arms d w Hne) as (? & ? & _). done. }
  destruct (lastTaskTimestamp (queue w)) as [last|].
  - destruct (Z.eqb_spec last 0) as [->|Hlast].
    + exists (Fin 0). destruct (Harm num_zero). repeat split; try done.
    + unfold of_Z. set (e := inject_Z (now - last)). clearbody e.
      unfold num_gt, num_sub, Math_max, num_zero.
      destruct (Qle_bool e q) eqn:Hle; cbn [negb].
      * apply Qle_bool_iff in Hle.
        assert (Hnn : Qle_bool 0 (Qred (q - e)) = true).
        { apply Qle_bool_iff. rewrite Qred_correct. lra. }
        unfold num_gt. rewrite Hnn. cbn [negb].
        eexists. destruct (Harm (Fin (Qred (q - e)))).
        split; [done|]. split; [done|]. split; [done|]. split.
        -- intros _ Hlt. lra.
        -- intros _ _. split; [apply Qred_correct|exact Hnn].
      * exists (Fin q). destruct (Harm (Fin q)).
        split; [done|]. split; [done|]. split; [done|]. split; [done|].
        intros _ Hle'. apply Qle_bool_iff in Hle'. congruence.
  - exists (Fin 0). destruct (Harm num_zero). done.
Qed.

Lemma updateTaskSchedule_wait_witness :
  exists d : number,
    timers (Main.updateTaskSchedule 5300%Z
              (fst (Main.append 8 5100%Z (Main.stop idle_after_one)))) = []
    /\ timers (Main.updateTaskSchedule 5300%Z
                 (with_queue (set_isActive true)
                    (fst (Main.append 8 5100%Z (Main.stop idle_after_one)))))
       = [mkTimer 2 d]
    /\ num_eq d (Fin 700).
Proof.
  destruct (updateTaskSchedule_wait 5300%Z
              (with_queue (set_isActive true)
                 (fst (Main.append 8 5100%Z (Main.stop idle_after_one))))
              1000 eq_refl ltac:(discriminate) eq_refl eq_refl)
    as (d & Htm & _ & _ & _ & Hrest).
  exists d. split; [reflexivity|]. split; [exact Htm|].
  apply Hrest; [discriminate|]. vm_compute. discriminate.
Defined.

(** ** Adding tasks *)

(** C8: [append] puts the new item at the tail; [prepend] puts it at the
    head, except on an empty queue, where [prepend] and [append] yield the
    same world; [add] with [true] is [append] and with [false] is
    [prepend].  The new item carries the function and a fresh pending
    promise, which is the promise returned. *)
Theorem add_places_item (f : fnref) (now : Z) (w : World) :
  let item := mkItem f (length (promises w)) in
  tasks (queue (fst (Main.append f now w))) = tasks (queue w) ++ [item] /\
  (tasks (queue w) <> [] ->
   tasks (queue (fst (Main.prepend f now w))) = item :: tasks (queue w)) /\
  (tasks (queue w) = [] -> Main.prepend f now w = Main.append f now w) /\
  Main.add f true now w = Main.append f now w /\
  Main.add f false now w = Main.prepend f now w /\
  snd (Main.append f now w) = promise item /\
  snd (Main.prepend f now w) = promise item /\
  promises (fst (Main.append f now w)) = promises w ++ [Pending] /\
  promises (fst (Main.prepend f now w)) = promises w ++ [Pending].
Proof.
  unfold Main.append, Main.prepend, Main.add, newPromise. simpl.
  repeat split.
  - rewrite orb_true_r. simpl.
    by rewrite (proj1 (updateTaskSchedule_frame _ _)).
  - intros Hne. rewrite orb_false_r.
    rewrite (proj1 (updateTaskSchedule_frame _ _)).
    unfold Main.isEmpty. simpl.
    destruct (tasks (queue w)) eqn:E; [done|]. simpl. by rewrite E.
  - intros Hnil. rewrite orb_false_r, orb_true_r.
    unfold Main.isEmpty. simpl. by rewrite Hnil.
  - rewrite orb_true_r.
    by rewrite (proj1 (proj2 (updateTaskSchedule_frame _ _))).
  - rewrite orb_false_r.
    rewrite (proj1 (proj2 (updateTaskSchedule_frame _ _))).
    by case_match.
Qed.

Lemma add_places_item_witness :
  Main.prepend 9 7000%Z idle_after_one = Main.append 9 7000%Z idle_after_one /\
  tasks (queue (fst (Main.prepend 3 6000%Z
                       (fst (Main.append 9 5000%Z armed_then_emptied)))))
    = [mkItem 3 2; mkItem 9 1].
Proof.
  split.
  - apply (proj1 (proj2 (proj2 (add_places_item 9 7000%Z idle_after_one)))).
    reflexivity.
  - apply (proj1 (proj2 (add_places_item 3 6000%Z
                           (fst (Main.append 9 5000%Z armed_then_emptied))))).
    discriminate.
Defined.

(** ** Appending to a stopped queue *)

Lemma append_stopped (f : fnref) (now : Z) (w : World) :
  isActive (queue w) = false ->
  fst (Main.append f now w)
  = mkWorld (set_tasks (tasks (queue w) ++ [mkItem f (length (promises w))]) (queue w))
            (timers w) (nextHandle w) (promises w ++ [Pending]) (executed w).
Proof.
  intros Hstopped. unfold Main.append, Main.add, newPromise. simpl.
  rewrite orb_true_r. by rewrite updateTaskSchedule_stopped.
Qed.

Lemma appendAll_stopped (fs : list fnref) (now : Z) :
  forall w : World,
    isActive (queue w) = false ->
    let w' := appendAll fs now w in
    task <$> tasks (queue w') = (task <$> tasks (queue w)) ++ fs /\
    promise <$> tasks (queue w')
    = (promise <$> tasks (queue w)) ++ seq (length (promises w)) (length fs) /\
    promises w' = promises w ++ replicate (length fs) Pending /\
    executed w' = executed w /\
    timers w' = timers w /\
    nextHandle w' = nextHandle w /\
    isActive (queue w') = false /\
    currentTaskTimeoutId (queue w') = currentTaskTimeoutId (queue w) /\
    lastTaskTimestamp (queue w') = lastTaskTimestamp (queue w) /\
    jobIntervalMillis (queue w') = jobIntervalMillis (queue w).
Proof.
  induction fs as [|f fs IH]; intros w Hstopped.
  - simpl. rewrite !app_nil_r. done.
  - change (appendAll (f :: fs) now w)
      with (appendAll fs now (fst (Main.append f now w))).
    rewrite append_stopped by done.
    match goal with
    | |- context [appendAll fs now ?x] =>
        specialize (IH x Hstopped); cbv zeta in IH; cbv zeta;
        destruct IH as (-> & -> & -> & -> & -> & -> & -> & -> & -> & ->)
    end.
    simpl. rewrite !fmap_app, <- !app_assoc, length_app. simpl.
    rewrite Nat.add_1_r. done.
Qed.

(** Appending to a stopped queue only grows the queue: after [N] appends
    its size is [N] larger, every new promise is pending, nothing was
    executed and no timeout was armed. *)
Theorem appends_on_stopped_queue (fs : list fnref) (now : Z) (w : World) :
  isActive (queue w) = false ->
  Main.getQueueSize (appendAll fs now w) = Main.getQueueSize w + length fs /\
  task <$> tasks (queue (appendAll fs now w)) = (task <$> tasks (queue w)) ++ fs /\
  promises (appendAll fs now w) = promises w ++ replicate (length fs) Pending /\
  executed (appendAll fs now w) = executed w /\
  timers (appendAll fs now w) = timers w /\
  isActive (queue (appendAll fs now w)) = false.
Proof.
  intros Hstopped.
  destruct (appendAll_stopped fs now w Hstopped)
    as (Htask & _ & Hprom & Hex & Htm & _ & Hact & _).
  repeat split; try done.
  unfold Main.getQueueSize.
  rewrite <- (length_fmap task), Htask, length_app, length_fmap. done.
Qed.

Lemma appends_on_stopped_queue_witness :
  Main.getQueueSize (appendAll [4; 4; 9] 100%Z (Main.PromiseQueue_new None)) = 3 /\
  executed (appendAll [4; 4; 9] 100%Z (Main.PromiseQueue_new None)) = [] /\
  timers (appendAll [4; 4; 9] 100%Z (Main.PromiseQueue_new None)) = [].
Proof.
  destruct (appends_on_stopped_queue [4; 4; 9] 100%Z (Main.PromiseQueue_new None)
              eq_refl) as (Hsize & _ & _ & Hex & Htm & _).
  split; [exact Hsize|]. split; [exact Hex|exact Htm].
Defined.

(** ** Stopping *)

(** C4, as the code has it: [stop()] on an active queue marks it inactive
    and leaves the tasks, promises and executions alone.  When the handle
    slot holds a timeout, that timeout is cancelled, the slot and the
    timestamp are cleared, and a later [start()] on a non-empty queue arms
    the head with a wait of zero.  When the slot is empty the timestamp is
    kept.  On an inactive queue [stop()] changes nothing. *)
Theorem stop_effect (w : World) :
  (isActive (queue w) = true ->
   isActive (queue (Main.stop w)) = false /\
   currentTaskTimeoutId (queue (Main.stop w)) = None /\
   tasks (queue (Main.stop w)) = tasks (queue w) /\
   promises (Main.stop w) = promises w /\
   executed (Main.stop w) = executed w /\
   match currentTaskTimeoutId (queue w) with
   | Some h =>
       timers (Main.stop w) = filter (fun t => handle t <> h) (timers w) /\
       lastTaskTimestamp (queue (Main.stop w)) = None /\
       (forall now : Z,
           tasks (queue w) <> [] ->
           timers (fst (Main.start now (Main.stop w)))
           = timers (Main.stop w) ++ [mkTimer (nextHandle w) num_zero])
   | None =>
       timers (Main.stop w) = timers w /\
       lastTaskTimestamp (queue (Main.stop w)) = lastTaskTimestamp (queue w)
   end) /\
  (isActive (queue w) = false -> Main.stop w = w).
Proof.
  split; intros Hact; unfold Main.stop; rewrite Hact; [|done].
  simpl. destruct (currentTaskTimeoutId (queue w)) as [h|] eqn:Hid; simpl.
  - repeat split. intros now Hne.
    unfold Main.start. simpl. unfold_schedule. simpl.
    destruct (tasks (queue w)); [done|]. reflexivity.
  - repeat split. exact Hid.
Qed.

Lemma stop_effect_witness :
  let armed := fst (Main.append 8 7000%Z idle_after_one) in
  timers armed = [mkTimer 2 (Fin 1000)] /\
  timers (Main.stop armed) = [] /\
  lastTaskTimestamp (queue (Main.stop armed)) = None /\
  timers (fst (Main.start 7100%Z (Main.stop armed))) = [mkTimer 3 (Fin 0)] /\
  lastTaskTimestamp (queue (Main.stop idle_after_one)) = Some 5000%Z /\
  Main.stop (Main.PromiseQueue_new None) = Main.PromiseQueue_new None.
Proof.
  pose proof (proj1 (stop_effect (fst (Main.append 8 7000%Z idle_after_one)))
                eq_refl) as H1.
  pose proof (proj1 (stop_effect idle_after_one) eq_refl) as H2.
  pose proof (proj2 (stop_effect (Main.PromiseQueue_new None)) eq_refl) as H3.
  destruct H1 as (_ & _ & _ & _ & _ & Htimers & Hts & Hstart).
  destruct H2 as (_ & _ & _ & _ & _ & _ & Hkeep).
  split; [reflexivity|]. split; [exact Htimers|]. split; [exact Hts|].
  split; [exact (Hstart 7100%Z ltac:(discriminate))|].
  split; [exact Hkeep|exact H3].
Defined.

(** C4 as stated fails: the queue ran a task at 5000 and is idle, with no
    timeout outstanding; [stop()] keeps the timestamp, and a task appended
    at 5100 is, after [start()] at 5200, armed with a wait of 800 and not
    run at once. *)
Lemma stop_keeps_timestamp_without_timer :
  isActive (queue idle_after_one) = true /\
  currentTaskTimeoutId (queue idle_after_one) = None /\
  lastTaskTimestamp (queue (Main.stop idle_after_one)) <> None /\
  timers (fst (Main.start 5200%Z
                 (fst (Main.append 8 5100%Z (Main.stop idle_after_one)))))
    = [mkTimer 2 (Fin 800)].
Proof. repeat split. discriminate. Qed.

(** ** Removing tasks *)

(** The loop, having visited the indices from [k - 1] down to [0], has
    deleted the matching items among the first [k] and counted them. *)
Lemma remove_loop_filter (f : fnref) (k : nat) :
  forall (ts : list TaskItem) (n : nat),
    k <= length ts ->
    Main.remove_loop f k ts n
    = (filter (fun it => task it <> f) (take k ts) ++ drop k ts,
       n + length (filter (fun it => task it = f) (take k ts))).
Proof.
  induction k as [|i IH]; intros ts n Hk.
  - simpl. rewrite drop_0. f_equal. lia.
  - destruct (lookup_lt_is_Some_2 ts i ltac:(lia)) as [it Hit].
    simpl. rewrite Hit.
    rewrite (take_S_r _ _ _ Hit), !filter_app.
    destruct (decide (task it = f)) as [Heq|Hne].
    + rewrite IH by (rewrite length_delete; [lia|eauto]).
      rewrite delete_take_drop.
      rewrite take_app_length' by (rewrite length_take; lia).
      rewrite drop_app_length' by (rewrite length_take; lia).
      rewrite (filter_cons_False _ it) by (intros H; by apply H).
      rewrite (filter_cons_True _ it) by done.
      rewrite !filter_nil, app_nil_r, length_app. simpl.
      f_equal. lia.
    + rewrite IH by lia.
      rewrite (drop_S _ _ _ Hit).
      rewrite (filter_cons_True _ it) by done.
      rewrite (filter_cons_False _ it) by done.
      rewrite !filter_nil, app_nil_r, <- app_assoc. reflexivity.
Qed.

Lemma remove_filter (f : fnref) (w : World) :
  Main.remove f w
  = (with_queue (set_tasks (filter (fun it => task it <> f) (tasks (queue w)))) w,
     length (filter (fun it => task it = f) (tasks (queue w)))).
Proof.
  unfold Main.remove. destruct (Main.isEmpty w) eqn:He.
  - apply isEmpty_nil in He. rewrite He. simpl.
    destruct w as [q ? ? ? ?]. destruct q. simpl in *. by subst.
  - rewrite remove_loop_filter by lia.
    rewrite firstn_all, drop_all, app_nil_r. reflexivity.
Qed.

(** ** What the methods leave alone *)

Lemma start_frame (now : Z) (w : World) :
  tasks (queue (fst (Main.start now w))) = tasks (queue w) /\
  promises (fst (Main.start now w)) = promises w /\
  executed (fst (Main.start now w)) = executed w.
Proof.
  unfold Main.start. destruct (isActive (queue w)); simpl; [done|].
  destruct (updateTaskSchedule_frame now (with_queue (set_isActive true) w))
    as (-> & -> & -> & _).
  done.
Qed.

Lemma stop_frame (w : World) :
  tasks (queue (Main.stop w)) = tasks (queue w) /\
  promises (Main.stop w) = promises w /\
  executed (Main.stop w) = executed w.
Proof.
  unfold Main.stop. destruct (isActive (queue w)); simpl; [|done].
  destruct (currentTaskTimeoutId (queue w)); done.
Qed.

Lemma add_frame (f : fnref) (a : bool) (now : Z) (w : World) :
  tasks (queue (fst (Main.add f a now w)))
  = (if Main.isEmpty w || a
     then tasks (queue w) ++ [mkItem f (length (promises w))]
     else mkItem f (length (promises w)) :: tasks (queue w)) /\
  promises (fst (Main.add f a now w)) = promises w ++ [Pending] /\
  executed (fst (Main.add f a now w)) = executed w.
Proof.
  unfold Main.add, newPromise. simpl.
  match goal with
  | |- context [Main.updateTaskSchedule now ?x] =>
      destruct (updateTaskSchedule_frame now x) as (-> & -> & -> & _)
  end.
  unfold Main.isEmpty. simpl.
  destruct (length (tasks (queue w)) =? 0); destruct a; done.
Qed.

Lemma remove_frame (f : fnref) (w : World) :
  tasks (queue (fst (Main.remove f w)))
  = filter (fun it => task it <> f) (tasks (queue w)) /\
  promises (fst (Main.remove f w)) = promises w /\
  executed (fst (Main.remove f w)) = executed w /\
  timers (fst (Main.remove f w)) = timers w.
Proof. rewrite remove_filter. done. Qed.

(** Every method leaves the executions alone, adds at most one pending
    promise, and queues only old items or an item with the new promise. *)
Lemma do_call_frame (now : Z) (w : World) (c : call) :
  executed (Main.do_call now w c) = executed w /\
  (exists k, promises (Main.do_call now w c) = promises w ++ replicate k Pending) /\
  (forall it, it ∈ tasks (queue (Main.do_call now w c)) ->
              it ∈ tasks (queue w) \/ promise it = length (promises w)).
Proof.
  destruct c as [| |f a|f|f|f]; unfold Main.do_call.
  - destruct (start_frame now w) as (-> & -> & ->).
    split; [done|]. split; [exists 0; by rewrite app_nil_r|]. auto.
  - destruct (stop_frame w) as (-> & -> & ->).
    split; [done|]. split; [exists 0; by rewrite app_nil_r|]. auto.
  - destruct (add_frame f a now w) as (-> & -> & ->).
    split; [done|]. split; [by exists 1|].
    intros it. destruct (Main.isEmpty w || a).
    + rewrite elem_of_app, list_elem_of_singleton. intros [?| ->]; auto.
    + rewrite elem_of_cons. intros [->|?]; auto.
  - unfold Main.append. destruct (add_frame f true now w) as (-> & -> & ->).
    split; [done|]. split; [by exists 1|].
    intros it. rewrite orb_true_r.
    rewrite elem_of_app, list_elem_of_singleton. intros [?| ->]; auto.
  - unfold Main.prepend. destruct (add_frame f false now w) as (-> & -> & ->).
    split; [done|]. split; [by exists 1|].
    intros it. destruct (Main.isEmpty w || false).
    + rewrite elem_of_app, list_elem_of_singleton. intros [?| ->]; auto.
    + rewrite elem_of_cons. intros [->|?]; auto.
  - destruct (remove_frame f w) as (-> & -> & -> & _).
    split; [done|]. split; [exists 0; by rewrite app_nil_r|].
    intros it. rewrite list_elem_of_filter. intros [_ ?]. auto.
Qed.

(** ** Promises of queued items *)

Lemma pending_extend (ps : list PromiseState) (ts : list TaskItem) (f : fnref)
    (at_tail : bool) :
  NoDup (promise <$> ts) ->
  Forall (fun it => ps !! promise it = Some Pending) ts ->
  let item := mkItem f (length ps) in
  let ts' := if at_tail then ts ++ [item] else item :: ts in
  NoDup (promise <$> ts') /\
  Forall (fun it => (ps ++ [Pending]) !! promise it = Some Pending) ts'.
Proof.
  intros Hnd Hp item ts'.
  assert (Hfresh : length ps ∉ promise <$> ts).
  { intros (it & Heq & Hin)%list_elem_of_fmap.
    rewrite Forall_forall in Hp. apply Hp, lookup_lt_Some in Hin. lia. }
  assert (Hold : Forall (fun it => (ps ++ [Pending]) !! promise it = Some Pending) ts).
  { eapply Forall_impl; [exact Hp|]. intros it Hit. simpl in *.
    rewrite lookup_app_l; [done|]. by eapply lookup_lt_Some. }
  assert (Hnew : (ps ++ [Pending]) !! promise item = Some Pending).
  { by apply list_lookup_middle. }
  subst ts'. destruct at_tail.
  - split.
    + rewrite fmap_app. apply NoDup_app. split; [done|]. split.
      * intros x Hx. simpl. rewrite list_elem_of_singleton. intros ->. done.
      * apply NoDup_singleton.
    + apply Forall_app. split; [done|]. by apply Forall_singleton.
  - split.
    + rewrite fmap_cons. apply NoDup_cons. done.
    + apply Forall_cons. done.
Qed.

Lemma do_call_queued_pending (now : Z) (w : World) (c : call) :
  queued_pending w -> queued_pending (Main.do_call now w c).
Proof.
  intros [Hnd Hp]. unfold queued_pending.
  assert (Hadd : forall f a,
    NoDup (promise <$> tasks (queue (fst (Main.add f a now w)))) /\
    Forall (fun it => promises (fst (Main.add f a now w)) !! promise it = Some Pending)
           (tasks (queue (fst (Main.add f a now w))))).
  { intros f a. destruct (add_frame f a now w) as (-> & -> & _).
    exact (pending_extend (promises w) (tasks (queue w)) f
             (Main.isEmpty w || a) Hnd Hp). }
  destruct c as [| |f a|f|f|f]; unfold Main.do_call.
  - destruct (start_frame now w) as (-> & -> & _). done.
  - destruct (stop_frame w) as (-> & -> & _). done.
  - apply Hadd.
  - apply Hadd.
  - apply Hadd.
  - destruct (remove_frame f w) as (-> & -> & _). split.
    + eapply sublist_NoDup; [exact Hnd|]. apply fmap_sublist, sublist_filter.
    + rewrite Forall_forall in Hp. apply Forall_forall.
      intros it [_ Hin]%list_elem_of_filter. by apply Hp.
Qed.

(** A promise that no queued item holds stays so, and keeps its state,
    whatever method is called. *)
Lemma do_call_outside (now : Z) (w : World) (c : call) (p : nat) :
  outside p w ->
  outside p (Main.do_call now w c) /\
  promises (Main.do_call now w c) !! p = promises w !! p.
Proof.
  intros [Hlt Hout].
  destruct (do_call_frame now w c) as (_ & [k Hk] & Hin).
  unfold outside. rewrite Hk. split; [split|].
  - rewrite length_app. lia.
  - intros (it & -> & Hit)%list_elem_of_fmap.
    destruct (Hin it Hit) as [Hold|Hnew]; [|lia].
    apply Hout. by apply list_elem_of_fmap_2.
  - by apply lookup_app_l.
Qed.

Lemma calls_queued_pending (now : Z) (cs : list call) :
  forall w, queued_pending w -> queued_pending (foldl (Main.do_call now) w cs).
Proof.
  induction cs as [|c cs IH]; intros w Hw; simpl; [done|].
  by apply IH, do_call_queued_pending.
Qed.

Lemma calls_outside (now : Z) (cs : list call) (p : nat) :
  forall w,
    outside p w ->
    outside p (foldl (Main.do_call now) w cs) /\
    promises (foldl (Main.do_call now) w cs) !! p = promises w !! p.
Proof.
  induction cs as [|c cs IH]; intros w Hw; simpl; [done|].
  destruct (do_call_outside now w c p Hw) as [Hout Heq].
  destruct (IH _ Hout) as [Hout' Heq']. split; [done|]. by rewrite Heq'.
Qed.

Lemma calls_executed (now : Z) (cs : list call) :
  forall w, executed (foldl (Main.do_call now) w cs) = executed w.
Proof.
  induction cs as [|c cs IH]; intros w; simpl; [done|].
  rewrite IH. apply do_call_frame.
Qed.

(** ** Settling *)

Lemma settle_result (r : outcome) (p : nat) (w : World) :
  match r with
  | Returns v => resolve p v w
  | Throws e => reject p e w
  end = settle p (settled_as r) w.
Proof. by destruct r. Qed.

Lemma settle_frame (p : nat) (s : PromiseState) (w : World) :
  queue (settle p s w) = queue w /\
  timers (settle p s w) = timers w /\
  nextHandle (settle p s w) = nextHandle w /\
  executed (settle p s w) = executed w /\
  length (promises (settle p s w)) = length (promises w).
Proof.
  unfold settle. destruct (promises w !! p) as [[| |]|]; simpl; try done.
  by rewrite length_insert.
Qed.

Lemma settle_pending (p : nat) (s : PromiseState) (w : World) :
  promises w !! p = Some Pending ->
  promises (settle p s w) !! p = Some s.
Proof.
  intros H. unfold settle. rewrite H. simpl.
  apply list_lookup_insert_eq. by eapply lookup_lt_Some.
Qed.

Lemma settle_other (p q : nat) (s : PromiseState) (w : World) :
  p <> q -> promises (settle p s w) !! q = promises w !! q.
Proof.
  intros H. unfold settle. destruct (promises w !! p) as [[| |]|]; simpl; try done.
  by apply list_lookup_insert_ne.
Qed.


Section Invariants.

Variable prog : fnref -> body.

(** Running the head item: its promise, pending before, is settled to the
    result of its function; one execution is recorded; the queued items
    stay distinct and pending; promises outside the queue are untouched. *)
Lemma processNextTask_head (now : Z) (w : World) (it : TaskItem) (rest : list TaskItem) :
  queued_pending w ->
  tasks (queue w) = it :: rest ->
  let w' := Main.processNextTask prog now w in
  queued_pending w' /\
  outside (promise it) w' /\
  promises w !! promise it = Some Pending /\
  promises w' !! promise it = Some (settled_as (result (prog (task it)))) /\
  executed w'
  = executed w ++ [mkExecution (task it) (promise it) (result (prog (task it)))
                               (isActive (queue w)) now] /\
  (forall p, outside p w -> outside p w' /\ promises w' !! p = promises w !! p).
Proof.
  intros [Hnd Hp] Htasks. simpl.
  unfold Main.processNextTask. rewrite Htasks.
  rewrite settle_result.
  set (w1 := with_queue (set_tasks rest) w).
  set (w2 := foldl (Main.do_call now) w1 (calls (prog (task it)))).
  rewrite Htasks in Hnd, Hp.
  rewrite fmap_cons in Hnd. apply NoDup_cons in Hnd as [Hnotin Hnd].
  apply Forall_cons in Hp as [Hpit Hp].
  assert (Hqp1 : queued_pending w1) by done.
  assert (Hout1 : outside (promise it) w1).
  { split; [by eapply lookup_lt_Some|done]. }
  pose proof (calls_queued_pending now (calls (prog (task it))) w1 Hqp1) as Hqp2.
  destruct (calls_outside now (calls (prog (task it))) (promise it) w1 Hout1)
    as [Hout2 Hlook2].
  fold w2 in Hqp2, Hout2, Hlook2.
  match goal with |- context [settle _ _ ?x] => set (w3 := x) end.
  assert (Hpend3 : promises w3 !! promise it = Some Pending).
  { change (promises w3) with (promises w2). by rewrite Hlook2. }
  destruct (settle_frame (promise it) (settled_as (result (prog (task it)))) w3)
    as (Hq & _ & _ & Hex & Hlen).
  split; [|split; [|split; [|split; [|split]]]].
  - destruct Hqp2 as [Hnd2 Hp2]. split; rewrite Hq; [done|].
    rewrite Forall_forall in Hp2. apply Forall_forall. intros x Hx.
    rewrite settle_other; [by apply Hp2|].
    intros Heq. apply (proj2 Hout2). rewrite Heq. by apply list_elem_of_fmap_2.
  - destruct Hout2 as [Hlt2 Hni2]. split; [by rewrite Hlen|by rewrite Hq].
  - done.
  - by apply settle_pending.
  - rewrite Hex. simpl. subst w2. by rewrite calls_executed.
  - intros p [Hlt Hni].
    assert (Hne : promise it <> p).
    { intros <-. apply Hni. rewrite Htasks, fmap_cons. apply list_elem_of_here. }
    assert (Hp1 : outside p w1).
    { split; [done|]. intros Hin. apply Hni.
      rewrite Htasks, fmap_cons. by apply list_elem_of_further. }
    destruct (calls_outside now (calls (prog (task it))) p w1 Hp1) as [[Hlt2 Hni2] Hl2].
    fold w2 in Hlt2, Hni2, Hl2.
    split; [split|].
    + by rewrite Hlen.
    + by rewrite Hq.
    + rewrite settle_other by done. exact Hl2.
Qed.

Lemma processNextTask_empty (now : Z) (w : World) :
  tasks (queue w) = [] -> Main.processNextTask prog now w = w.
Proof. intros H. unfold Main.processNextTask. by rewrite H. Qed.

Lemma queued_pending_ext (w w' : World) :
  tasks (queue w') = tasks (queue w) -> promises w' = promises w ->
  queued_pending w -> queued_pending w'.
Proof. unfold queued_pending. by intros -> ->. Qed.

Lemma outside_ext (p : nat) (w w' : World) :
  tasks (queue w') = tasks (queue w) -> promises w' = promises w ->
  outside p w -> outside p w'.
Proof. unfold outside. by intros -> ->. Qed.

(** The world in which the callback of the timeout [h] starts. *)
Lemma onTimeout_queued_pending (now : Z) (w : World) :
  queued_pending w -> queued_pending (Main.onTimeout prog now w).
Proof.
  intros Hw. unfold Main.onTimeout.
  set (w0 := with_queue (set_lastTaskTimestamp (Some now)) w).
  assert (H0 : queued_pending w0) by done.
  destruct (scheduleNext_frame (jobIntervalMillis (queue (Main.processNextTask prog now w0)))
              (Main.processNextTask prog now w0)) as (Ht & Hp & _).
  eapply queued_pending_ext; [exact Ht|exact Hp|].
  destruct (tasks (queue w0)) as [|it rest] eqn:Htasks.
  - by rewrite processNextTask_empty.
  - by apply (processNextTask_head now w0 it rest).
Qed.

Lemma onTimeout_outside (now : Z) (w : World) (p : nat) :
  queued_pending w -> outside p w ->
  outside p (Main.onTimeout prog now w) /\
  promises (Main.onTimeout prog now w) !! p = promises w !! p.
Proof.
  intros Hw Hout. unfold Main.onTimeout.
  set (w0 := with_queue (set_lastTaskTimestamp (Some now)) w).
  assert (H0 : queued_pending w0) by done.
  assert (Hout0 : outside p w0) by done.
  destruct (scheduleNext_frame (jobIntervalMillis (queue (Main.processNextTask prog now w0)))
              (Main.processNextTask prog now w0)) as (Ht & Hp & _).
  rewrite Hp.
  assert (H1 : outside p (Main.processNextTask prog now w0) /\
               promises (Main.processNextTask prog now w0) !! p = promises w !! p).
  { destruct (tasks (queue w0)) as [|it rest] eqn:Htasks.
    - by rewrite processNextTask_empty.
    - destruct (processNextTask_head now w0 it rest H0 Htasks)
        as (_ & _ & _ & _ & _ & Hall).
      by apply Hall. }
  destruct H1 as [H1 H2]. split; [|done].
  eapply outside_ext; [exact Ht|exact Hp|exact H1].
Qed.

Lemma step_queued_pending (w : World) (e : Main.event) :
  queued_pending w -> queued_pending (Main.step prog w e).
Proof.
  intros Hw. destruct e as [c now|h now]; simpl.
  - by apply do_call_queued_pending.
  - unfold Main.fire. case_bool_decide; [|done].
    by apply onTimeout_queued_pending.
Qed.

Lemma step_outside (w : World) (e : Main.event) (p : nat) :
  queued_pending w -> outside p w ->
  outside p (Main.step prog w e) /\
  promises (Main.step prog w e) !! p = promises w !! p.
Proof.
  intros Hw Hout. destruct e as [c now|h now]; simpl.
  - by apply do_call_outside.
  - unfold Main.fire. case_bool_decide; [|done].
    by apply (onTimeout_outside now (clearInterval h w) p).
Qed.

Lemma run_cons (w : World) (e : Main.event) (es : list Main.event) :
  Main.run prog w (e :: es) = Main.run prog (Main.step prog w e) es.
Proof. reflexivity. Qed.

Lemma run_queued_pending (es : list Main.event) :
  forall w, queued_pending w -> queued_pending (Main.run prog w es).
Proof.
  induction es as [|e es IH]; intros w Hw; [done|].
  rewrite run_cons. by apply IH, step_queued_pending.
Qed.

Lemma run_outside (es : list Main.event) (p : nat) :
  forall w,
    queued_pending w -> outside p w ->
    promises (Main.run prog w es) !! p = promises w !! p.
Proof.
  induction es as [|e es IH]; intros w Hw Hout; [done|].
  destruct (step_outside w e p Hw Hout) as [Hout' Heq].
  rewrite run_cons, IH; [done| |done].
  by apply step_queued_pending.
Qed.

Lemma new_queued_pending (r : option number) :
  queued_pending (Main.PromiseQueue_new r).
Proof. split; simpl; [apply NoDup_nil_2|apply Forall_nil_2]. Qed.

Lemma reachable_queued_pending (w : World) :
  reachable prog w -> queued_pending w.
Proof.
  intros (r & es & ->). apply run_queued_pending, new_queued_pending.
Qed.

(** Once settled, a promise never changes. *)
Lemma do_call_settled (now : Z) (w : World) (c : call) (p : nat) (t : PromiseState) :
  promises w !! p = Some t ->
  promises (Main.do_call now w c) !! p = Some t.
Proof.
  intros Hp. destruct (do_call_frame now w c) as (_ & [k ->] & _).
  rewrite lookup_app_l; [done|]. by eapply lookup_lt_Some.
Qed.




End Invariants.

Lemma queued_promise_inj (w : World) (x y : TaskItem) :
  queued_pending w ->
  x ∈ tasks (queue w) -> y ∈ tasks (queue w) -> promise x = promise y -> x = y.
Proof.
  intros [Hnd _]. induction (tasks (queue w)) as [|z l IH]; [by intros ?%elem_of_nil|].
  rewrite fmap_cons in Hnd. apply NoDup_cons in Hnd as [Hz Hnd].
  intros [->|Hx]%elem_of_cons [->|Hy]%elem_of_cons Heq.
  - done.
  - exfalso. apply Hz. rewrite Heq. by apply list_elem_of_fmap_2.
  - exfalso. apply Hz. rewrite <- Heq. by apply list_elem_of_fmap_2.
  - by apply IH.
Qed.

(** ** Removal, as a caller sees it *)

(** C7: in every reachable world, [remove(f)] deletes exactly the items
    whose function is [f] and keeps the others in their order, returns how
    many it deleted (zero on an empty queue), touches no promise, no
    execution and no timeout; and the promise of a deleted item stays
    pending whatever happens afterwards. *)
Theorem remove_effect (prog : fnref -> body) (w : World) (f : fnref) :
  reachable prog w ->
  let w' := fst (Main.remove f w) in
  tasks (queue w') = filter (fun it => task it <> f) (tasks (queue w)) /\
  snd (Main.remove f w)
  = length (filter (fun it => task it = f) (tasks (queue w))) /\
  (tasks (queue w) = [] -> snd (Main.remove f w) = 0) /\
  promises w' = promises w /\
  executed w' = executed w /\
  timers w' = timers w /\
  (forall it : TaskItem,
      it ∈ tasks (queue w) -> task it = f ->
      forall es : list Main.event,
        promises (Main.run prog w' es) !! promise it = Some Pending).
Proof.
  intros Hreach. simpl.
  pose proof (reachable_queued_pending prog w Hreach) as Hqp.
  destruct (remove_frame f w) as (Ht & Hp & He & Hti).
  split; [done|]. split; [by rewrite remove_filter|].
  split; [intros Hnil; by rewrite remove_filter, Hnil|].
  split; [done|]. split; [done|]. split; [done|].
  intros it Hin Hf es.
  assert (Hpend : promises w !! promise it = Some Pending).
  { destruct Hqp as [_ Hall]. rewrite Forall_forall in Hall. by apply Hall. }
  rewrite run_outside.
  - by rewrite Hp.
  - exact (do_call_queued_pending 0%Z w (Remove f) Hqp).
  - split.
    + rewrite Hp. by eapply lookup_lt_Some.
    + rewrite Ht. intros (y & Heq & [Hy Hyin]%list_elem_of_filter)%list_elem_of_fmap.
      apply Hy. by rewrite <- (queued_promise_inj w it y Hqp Hin Hyin Heq).
Qed.

Lemma remove_effect_witness :
  tasks (queue (fst (Main.remove 5 same_task_thrice))) = [mkItem 6 1] /\
  snd (Main.remove 5 same_task_thrice) = 3 /\
  promises (Main.run returning (fst (Main.remove 5 same_task_thrice))
              [Main.Call Start 1000%Z; Main.Fire 1 1000%Z; Main.Fire 2 2000%Z])
    !! 3 = Some Pending.
Proof.
  assert (Hreach : reachable returning same_task_thrice).
  { exists None. eexists. reflexivity. }
  destruct (remove_effect returning same_task_thrice 5 Hreach)
    as (Htasks & Hcount & _ & _ & _ & _ & Hpending).
  split; [exact Htasks|]. split; [exact Hcount|].
  apply (Hpending (mkItem 5 3)); [|reflexivity].
  vm_compute. do 3 apply list_elem_of_further. apply list_elem_of_here.
Defined.

(** ** Executing the head *)



(** ** A timeout firing on an empty queue *)

(** C10: when an outstanding timeout fires and the queue is empty,
    nothing is executed and no promise changes; the queue stays empty,
    its handle slot is cleared, no new timeout is armed and the active
    flag is untouched.  The firing instant is still written to the
    timestamp. *)
Theorem fire_on_empty_queue (prog : fnref -> body) (w : World) (h : nat) (now : Z) :
  tasks (queue w) = [] ->
  h ∈ fmap handle (timers w) ->
  let w' := Main.fire prog h now w in
  executed w' = executed w /\
  promises w' = promises w /\
  tasks (queue w') = [] /\
  currentTaskTimeoutId (queue w') = None /\
  timers w' = filter (fun t => handle t <> h) (timers w) /\
  nextHandle w' = nextHandle w /\
  isActive (queue w') = isActive (queue w) /\
  lastTaskTimestamp (queue w') = Some now.
Proof.
  intros Hnil Hin. simpl. unfold Main.fire.
  rewrite bool_decide_eq_true_2 by done.
  unfold Main.onTimeout, Main.processNextTask. simpl. rewrite Hnil.
  unfold Main.scheduleNext, Main.isEmpty. simpl. rewrite Hnil. simpl.
  done.
Qed.

Lemma fire_on_empty_queue_witness :
  timers armed_then_emptied = [mkTimer 1 (Fin 0)] /\
  let w' := Main.fire returning 1 5000%Z armed_then_emptied in
  executed w' = [] /\
  promises w' = [Pending] /\
  tasks (queue w') = [] /\
  currentTaskTimeoutId (queue w') = None /\
  timers w' = [] /\
  nextHandle w' = 2 /\
  isActive (queue w') = true /\
  lastTaskTimestamp (queue w') = Some 5000%Z.
Proof.
  split; [reflexivity|].
  apply (fire_on_empty_queue returning armed_then_emptied 1 5000%Z).
  - reflexivity.
  - vm_compute. apply list_elem_of_here.
Defined.

(** ** Draining a queue of plain tasks *)

Lemma fireNext_head (prog : fnref -> body) (now : Z) (w : World)
    (it : TaskItem) (rest : list TaskItem) (h : nat) (d : number) :
  plain prog (task it) ->
  tasks (queue w) = it :: rest ->
  timers w = [mkTimer h d] ->
  let w' := Main.fireNext prog now w in
  tasks (queue w') = rest /\
  executed w'
  = executed w ++ [mkExecution (task it) (promise it) (result (prog (task it)))
                               (isActive (queue w)) now] /\
  timers w'
  = (match rest with
     | [] => []
     | _ :: _ => [mkTimer (nextHandle w) (jobIntervalMillis (queue w))]
     end).
Proof.
  intros Hplain Htasks Htimers. simpl.
  unfold Main.fireNext. rewrite Htimers. simpl.
  unfold Main.fire. rewrite Htimers.
  rewrite bool_decide_eq_true_2 by (simpl; apply list_elem_of_here).
  unfold Main.onTimeout, Main.processNextTask. simpl. rewrite Htasks.
  unfold plain in Hplain. rewrite Hplain. simpl.
  rewrite settle_result.
  match goal with |- context [settle ?p ?s ?x] =>
    destruct (settle_frame p s x) as (Hq & Ht & Hn & Hex & _);
    set (w2 := settle p s x) in *
  end.
  simpl in Hq, Ht, Hn, Hex.
  unfold Main.scheduleNext, Main.isEmpty, setTimeout, with_queue.
  rewrite Hq, Ht, Hn, Hex, Htimers. simpl.
  rewrite filter_cons_False by (simpl; intros H; by apply H).
  rewrite filter_nil.
  destruct rest; simpl; rewrite ?Hex; done.
Qed.

Lemma fireAll_drains (prog : fnref -> body) (nows : list Z) :
  forall (w : World) (items : list TaskItem),
    Forall (plain prog) (task <$> items) ->
    tasks (queue w) = items ->
    (items <> [] -> exists h d, timers w = [mkTimer h d]) ->
    (items = [] -> timers w = []) ->
    length nows <= length items ->
    let w' := fireAll prog nows w in
    tasks (queue w') = drop (length nows) items /\
    ex_task <$> executed w'
    = (ex_task <$> executed w) ++ take (length nows) (task <$> items) /\
    ex_promise <$> executed w'
    = (ex_promise <$> executed w) ++ take (length nows) (promise <$> items) /\
    ex_time <$> executed w' = (ex_time <$> executed w) ++ nows /\
    length (timers w') = (if decide (length nows < length items) then 1 else 0).
Proof.
  induction nows as [|now nows IH]; intros w items Hplain Htasks Harmed Hidle Hlen.
  - simpl. rewrite !app_nil_r. repeat split; try done.
    destruct items as [|it rest]; simpl.
    + by rewrite Hidle.
    + destruct Harmed as (h & d & ->); done.
  - destruct items as [|it rest]; [simpl in Hlen; lia|].
    destruct Harmed as (h & d & Htimers); [done|].
    rewrite fmap_cons in Hplain. apply Forall_cons in Hplain as [Hit Hrest].
    destruct (fireNext_head prog now w it rest h d Hit Htasks Htimers)
      as (Ht1 & Hex1 & Htm1).
    unfold fireAll. simpl foldl.
    set (w1 := Main.fireNext prog now w) in *.
    assert (Hlen' : length nows <= length rest) by (simpl in Hlen; lia).
    assert (Harmed1 : rest <> [] -> exists h d, timers w1 = [mkTimer h d]).
    { intros Hne. rewrite Htm1. destruct rest; [done|]. eauto. }
    assert (Hidle1 : rest = [] -> timers w1 = []).
    { intros ->. by rewrite Htm1. }
    destruct (IH w1 rest Hrest Ht1 Harmed1 Hidle1 Hlen')
      as (Ha & Hb & Hc & Hd & He).
    unfold fireAll in Ha, Hb, Hc, Hd, He.
    rewrite Ha, Hb, Hc, Hd, He, Hex1, !fmap_app. simpl.
    rewrite <- !app_assoc. simpl.
    repeat split; try done.
    repeat case_decide; try done; lia.
Qed.

Lemma processNextTask_plain (prog : fnref -> body) (now : Z) (w : World)
    (it : TaskItem) (rest : list TaskItem) :
  plain prog (task it) ->
  tasks (queue w) = it :: rest ->
  Main.processNextTask prog now w
  = settle (promise it) (settled_as (result (prog (task it))))
      (record_execution
         (mkExecution (task it) (promise it) (result (prog (task it)))
                      (isActive (queue w)) now)
         (with_queue (set_tasks rest) w)).
Proof.
  intros Hplain Htasks. unfold Main.processNextTask. rewrite Htasks.
  rewrite settle_result. unfold plain in Hplain. rewrite Hplain. reflexivity.
Qed.

(** ** Execution order *)

(** C1: functions that do not call back into the queue are appended in
    the order [fs] to a new queue, which is then started.  After the
    host has fired the outstanding timeout at each instant of [nows], the
    functions executed are, in this order, the first [length nows] of
    [fs], one at each firing instant; no promise was used by two
    executions; the rest of [fs] is still queued in its order; and a
    timeout is outstanding exactly when something is queued.  With as many
    firings as functions, the execution order is [fs] itself. *)
Theorem fifo_execution (prog : fnref -> body) (r : option number)
    (fs : list fnref) (t0 t1 : Z) (nows : list Z) :
  Forall (plain prog) fs ->
  length nows <= length fs ->
  let w := fireAll prog nows
             (fst (Main.start t1 (appendAll fs t0 (Main.PromiseQueue_new r)))) in
  ex_task <$> executed w = take (length nows) fs /\
  ex_time <$> executed w = nows /\
  NoDup (ex_promise <$> executed w) /\
  task <$> tasks (queue w) = drop (length nows) fs /\
  length (timers w) = (if decide (length nows < length fs) then 1 else 0) /\
  (length nows = length fs -> ex_task <$> executed w = fs).
Proof.
  intros Hplain Hlen. simpl.
  destruct (appendAll_stopped fs t0 (Main.PromiseQueue_new r) eq_refl)
    as (Htask & Hprom & _ & Hex & Htm & _ & Hact & Hid & Hlast & _).
  simpl in Htask, Hprom, Hex, Htm, Hid, Hlast.
  set (w0 := appendAll fs t0 (Main.PromiseQueue_new r)) in *.
  set (w1 := fst (Main.start t1 w0)).
  assert (Hlenfs : length (tasks (queue w0)) = length fs).
  { by rewrite <- (length_fmap task), Htask. }
  assert (Hw1 : tasks (queue w1) = tasks (queue w0) /\
                executed w1 = [] /\
                (tasks (queue w0) <> [] -> exists h d, timers w1 = [mkTimer h d]) /\
                (tasks (queue w0) = [] -> timers w1 = [])).
  { subst w1. unfold Main.start. rewrite Hact. simpl.
    unfold_schedule. simpl. rewrite Hid, Hlast, Htm, Hex.
    destruct (tasks (queue w0)) eqn:E; simpl; rewrite ?E.
    - repeat split; done.
    - repeat split; [eauto|done]. }
  destruct Hw1 as (Ht1 & Hex1 & Harmed & Hidle).
  assert (Hplain' : Forall (plain prog) (task <$> tasks (queue w0))) by (by rewrite Htask).
  assert (Hlen' : length nows <= length (tasks (queue w0))) by lia.
  destruct (fireAll_drains prog nows w1 (tasks (queue w0)) Hplain' Ht1 Harmed Hidle Hlen')
    as (Ha & Hb & Hc & Hd & He).
  rewrite Hex1 in Hb, Hc, Hd. simpl in Hb, Hc, Hd.
  rewrite Htask in Hb. rewrite Hprom in Hc. rewrite Hlenfs in He.
  split; [exact Hb|]. split; [exact Hd|]. split; [|split; [|split]].
  - rewrite Hc. eapply sublist_NoDup; [apply NoDup_seq|apply sublist_take].
  - by rewrite Ha, fmap_drop, Htask.
  - exact He.
  - intros Heq. rewrite Hb, Heq. apply firstn_all.
Qed.

Lemma fifo_execution_witness :
  let w := fireAll throwing_first [5000; 6000; 7000]%Z
             (fst (Main.start 5000%Z
                     (appendAll [0; 1; 2] 4000%Z
                        (Main.PromiseQueue_new (Some (Fin 1)))))) in
  ex_task <$> executed w = [0; 1; 2] /\
  ex_time <$> executed w = [5000; 6000; 7000]%Z /\
  task <$> tasks (queue w) = [] /\
  length (timers w) = 0.
Proof.
  assert (Hplain : Forall (plain throwing_first) [0; 1; 2]).
  { repeat constructor. }
  destruct (fifo_execution throwing_first (Some (Fin 1)) [0; 1; 2]
              4000%Z 5000%Z [5000; 6000; 7000]%Z Hplain ltac:(simpl; lia))
    as (Horder & Htimes & _ & Hqueued & Htimers & _).
  split; [exact Horder|]. split; [exact Htimes|].
  split; [exact Hqueued|exact Htimers].
Defined.

(** ** Execution order under any interleaving *)

Lemma step_fifo (prog : fnref -> body) (w : World) (e : Main.event) :
  (forall f, plain prog f) ->
  append_only e = true ->
  (ex_task <$> executed (Main.step prog w e))
    ++ (task <$> tasks (queue (Main.step prog w e)))
  = ((ex_task <$> executed w) ++ (task <$> tasks (queue w))) ++ appended [e].
Proof.
  intros Hplain Hev.
  assert (Hadd : forall f now,
    (ex_task <$> executed (fst (Main.add f true now w)))
      ++ (task <$> tasks (queue (fst (Main.add f true now w))))
    = ((ex_task <$> executed w) ++ (task <$> tasks (queue w))) ++ [f]).
  { intros f now. destruct (add_frame f true now w) as (-> & _ & ->).
    rewrite orb_true_r, fmap_app, app_assoc. done. }
  destruct e as [[| |f [|]|f|f|f] now|h now]; try discriminate; simpl.
  - destruct (start_frame now w) as (-> & _ & ->). by rewrite app_nil_r.
  - destruct (stop_frame w) as (-> & _ & ->). by rewrite app_nil_r.
  - apply Hadd.
  - apply Hadd.
  - rewrite app_nil_r. unfold Main.fire. case_bool_decide; [|done].
    unfold Main.onTimeout.
    match goal with
    | |- context [Main.scheduleNext ?d ?x] =>
        destruct (scheduleNext_frame d x) as (-> & _ & -> & _)
    end.
    match goal with
    | |- context [Main.processNextTask prog now ?x] => set (w0 := x)
    end.
    change (executed w) with (executed w0).
    change (tasks (queue w)) with (tasks (queue w0)).
    destruct (tasks (queue w0)) as [|it rest] eqn:Htasks.
    + by rewrite processNextTask_empty, Htasks.
    + rewrite (processNextTask_plain prog now w0 it rest (Hplain (task it)) Htasks).
      match goal with |- context [settle ?p ?s ?x] =>
        destruct (settle_frame p s x) as (-> & _ & _ & -> & _)
      end.
      simpl. rewrite fmap_app, <- app_assoc. done.
Qed.

(** Whatever the interleaving of appends, starts, stops and firings on a
    new queue, when no function calls back into the queue: the functions
    executed so far, followed by the functions still queued, are the
    functions appended so far, in the order of their appending. *)
Theorem fifo_any_interleaving (prog : fnref -> body) (r : option number)
    (es : list Main.event) :
  (forall f, plain prog f) ->
  forallb append_only es = true ->
  let w := Main.run prog (Main.PromiseQueue_new r) es in
  (ex_task <$> executed w) ++ (task <$> tasks (queue w)) = appended es.
Proof.
  intros Hplain Hes. simpl.
  change (appended es)
    with (((ex_task <$> executed (Main.PromiseQueue_new r))
             ++ (task <$> tasks (queue (Main.PromiseQueue_new r)))) ++ appended es).
  generalize (Main.PromiseQueue_new r) as w.
  induction es as [|e es IH]; intros w.
  - simpl. by rewrite app_nil_r.
  - simpl in Hes. apply andb_prop in Hes as [He Hes].
    rewrite run_cons, (IH Hes), (step_fifo prog w e Hplain He).
    unfold appended. simpl. by rewrite app_nil_r, <- !app_assoc.
Qed.

Lemma fifo_any_interleaving_witness :
  let w := Main.run returning (Main.PromiseQueue_new (Some (Fin 5)))
             [Main.Call Start 1000%Z; Main.Call (Append 0) 1000%Z;
              Main.Call (Append 1) 1000%Z; Main.Fire 1 1001%Z;
              Main.Call (Append 2) 1100%Z; Main.Fire 2 1201%Z] in
  (ex_task <$> executed w) ++ (task <$> tasks (queue w)) = [0; 1; 2].
Proof.
  apply (fifo_any_interleaving returning (Some (Fin 5))).
  - intros f. reflexivity.
  - reflexivity.
Defined.

(** ** Outstanding timeouts *)

(** C3: two timeouts can be outstanding at once.  In the other variant
    [updateTaskSchedule] never looks at the handle slot: on a started
    queue three appends within one millisecond run the first task and arm
    one timeout for each of the other two, which then run at the same
    instant.  In [src/promise-queue-rate-limited.js] the slot is checked,
    but it still holds the handle of the timeout that is firing while the
    task runs: a task that calls [stop()] and [start()] clears the slot and
    arms a timeout, and the callback arms another one on return; the next
    task then runs in the same millisecond as the first. *)
Theorem two_outstanding_timers :
  timers legacy_three_appends = [mkTimer 1 (Fin 1000); mkTimer 2 (Fin 1000)] /\
  currentTaskTimeoutId (queue legacy_three_appends) = Some 2 /\
  ex_time <$> executed
                (Legacy.fire (fun f => result (returning f)) 2 6000%Z
                   (Legacy.fire (fun f => result (returning f)) 1 6000%Z
                      legacy_three_appends))
    = [5000; 6000; 6000]%Z /\
  timers restart_inside_task = [mkTimer 2 (Fin 0); mkTimer 3 (Fin 1000)] /\
  currentTaskTimeoutId (queue restart_inside_task) = Some 3 /\
  ex_time <$> executed
                (Main.run restarting_first restart_inside_task
                   [Main.Fire 2 5000%Z])
    = [5000; 5000]%Z.
Proof. repeat split. Qed.

(** ** Execution while the queue is stopped *)

(** C5: tasks are executed while the active flag is false.  In
    [src/promise-queue-rate-limited.js] a task that calls [stop()] leaves
    the queue inactive, yet on return the callback arms the timeout for
    the next item; when that timeout fires the next task is executed and
    its promise fulfilled while the flag is false.  In the other variant
    no task needs to call back: after three appends two timeouts are
    outstanding, [stop()] cancels only the one in the handle slot, and the
    other one fires on the stopped queue. *)
Theorem executes_while_stopped :
  isActive (queue stop_inside_task) = false /\
  tasks (queue stop_inside_task) = [mkItem 1 1] /\
  timers stop_inside_task = [mkTimer 2 (Fin 1000)] /\
  executed (Main.fire stopping_first 2 6000%Z stop_inside_task)
  = executed stop_inside_task ++ [mkExecution 1 1 (Returns 1%Z) false 6000%Z] /\
  promises (Main.fire stopping_first 2 6000%Z stop_inside_task) !! 1
  = Some (Fulfilled 1%Z) /\
  isActive (queue (Main.fire stopping_first 2 6000%Z stop_inside_task)) = false /\
  isActive (queue (Legacy.stop legacy_three_appends)) = false /\
  timers (Legacy.stop legacy_three_appends) = [mkTimer 1 (Fin 1000)] /\
  executed (Legacy.fire (fun f => result (returning f)) 1 6000%Z
              (Legacy.stop legacy_three_appends))
  = executed legacy_three_appends
      ++ [mkExecution 11 1 (Returns 11%Z) false 6000%Z].
Proof. repeat split. Qed.

(** ** One timeout at a time, unless a task stops the queue *)

Lemma scheduleNext_single_timer (d : number) (w : World) :
  isActive (queue w) = true -> timers w = [] ->
  single_timer (Main.scheduleNext d w).
Proof.
  intros Hact Htm. unfold single_timer.
  destruct (scheduleNext_frame d w) as (_ & _ & _ & -> & _).
  destruct (tasks (queue w)) as [|it rest] eqn:Htasks.
  - destruct (scheduleNext_idle d w Htasks) as (-> & -> & _). done.
  - destruct (scheduleNext_arms d w) as (-> & -> & _); [by rewrite Htasks|].
    rewrite Htm. eauto.
Qed.

Lemma updateTaskSchedule_single_timer (now : Z) (w : World) :
  single_timer w -> single_timer (Main.updateTaskSchedule now w).
Proof.
  intros Hw. unfold Main.updateTaskSchedule.
  destruct (Main.isEmpty w || Main.isStopped w) eqn:Hgate; [done|].
  apply orb_false_elim in Hgate as [_ Hstopped].
  unfold Main.isStopped, Main.isStarted in Hstopped.
  apply negb_false_iff in Hstopped.
  unfold single_timer in Hw.
  destruct (currentTaskTimeoutId (queue w)) eqn:Hid.
  - unfold single_timer. by rewrite Hid.
  - repeat case_match; by apply scheduleNext_single_timer.
Qed.

Lemma do_call_single_timer (now : Z) (w : World) (c : call) :
  single_timer w -> single_timer (Main.do_call now w c).
Proof.
  intros Hw.
  assert (Hadd : forall f a, single_timer (fst (Main.add f a now w))).
  { intros f a. unfold Main.add, newPromise. simpl.
    apply updateTaskSchedule_single_timer.
    destruct (Main.isEmpty _ || a); exact Hw. }
  destruct c as [| |f a|f|f|f]; unfold Main.do_call; try apply Hadd.
  - unfold Main.start. destruct (isActive (queue w)) eqn:Hact; [done|]. simpl.
    apply updateTaskSchedule_single_timer.
    unfold single_timer in *. simpl.
    destruct (currentTaskTimeoutId (queue w)); [|done].
    destruct Hw as [Hw _]. congruence.
  - unfold Main.stop. destruct (isActive (queue w)) eqn:Hact; [|done]. simpl.
    unfold single_timer in *.
    destruct (currentTaskTimeoutId (queue w)) as [h|] eqn:Hid; simpl;
      [|by rewrite Hid].
    destruct Hw as (_ & d & ->).
    rewrite filter_cons_False by (simpl; intros H; by apply H). done.
  - rewrite remove_filter. exact Hw.
Qed.

(** While a task runs, the timeout that fired is gone and the slot still
    holds its handle.  A call other than [stop()] made in that state
    leaves the flag, the slot and the outstanding timeouts as they are. *)
Lemma do_call_in_callback (now : Z) (w : World) (c : call) :
  c <> Stop ->
  in_callback w -> in_callback (Main.do_call now w c).
Proof.
  intros Hc (Hact & Htm & h & Hid).
  assert (Hadd : forall f a, in_callback (fst (Main.add f a now w))).
  { intros f a. unfold Main.add, newPromise. simpl.
    rewrite (updateTaskSchedule_armed now _ h)
      by (destruct (Main.isEmpty _ || a); exact Hid).
    destruct (Main.isEmpty _ || a); unfold in_callback; simpl; eauto. }
  destruct c as [| |f a|f|f|f]; unfold Main.do_call; try apply Hadd.
  - unfold Main.start. rewrite Hact. unfold in_callback. eauto.
  - done.
  - rewrite remove_filter. unfold in_callback. simpl. eauto.
Qed.

Lemma calls_in_callback (now : Z) (cs : list call) :
  Stop ∉ cs ->
  forall w, in_callback w -> in_callback (foldl (Main.do_call now) w cs).
Proof.
  induction cs as [|c cs IH]; intros Hcs w Hw; simpl; [done|].
  apply not_elem_of_cons in Hcs as [Hc Hcs].
  apply IH; [done|]. apply do_call_in_callback; [congruence|done].
Qed.

Section NeverStopping.

Variable prog : fnref -> body.
Hypothesis prog_never_stops : forall f, never_stops prog f.

Lemma processNextTask_in_callback (now : Z) (w : World) :
  in_callback w ->
  in_callback (Main.processNextTask prog now w) /\
  (executed (Main.processNextTask prog now w) = executed w \/
   exists x, ex_active x = true /\
             executed (Main.processNextTask prog now w) = executed w ++ [x]).
Proof.
  intros Hw. unfold Main.processNextTask.
  destruct (tasks (queue w)) as [|it rest] eqn:Htasks; [auto|].
  rewrite settle_result.
  set (w1 := with_queue (set_tasks rest) w).
  assert (Hw1 : in_callback w1) by exact Hw.
  pose proof (calls_in_callback now (calls (prog (task it)))
                (prog_never_stops (task it)) w1 Hw1) as Hw2.
  match goal with |- context [settle ?p ?s ?x] =>
    destruct (settle_frame p s x) as (Hq & Ht & _ & Hex & _);
    set (w3 := settle p s x) in *
  end.
  split.
  - unfold in_callback. rewrite Hq, Ht. exact Hw2.
  - right. rewrite Hex. simpl. rewrite calls_executed.
    eexists. split; [|reflexivity]. simpl. apply Hw.
Qed.

Lemma fire_single_timer (h : nat) (now : Z) (w : World) :
  single_timer w ->
  single_timer (Main.fire prog h now w) /\
  (executed (Main.fire prog h now w) = executed w \/
   exists x, ex_active x = true /\
             executed (Main.fire prog h now w) = executed w ++ [x]).
Proof.
  intros Hw. unfold Main.fire. case_bool_decide as Hin; [|auto].
  unfold single_timer in Hw.
  destruct (currentTaskTimeoutId (queue w)) as [h'|] eqn:Hid;
    [|rewrite Hw in Hin; by apply elem_of_nil in Hin].
  destruct Hw as (Hact & d & Htm).
  rewrite Htm in Hin. simpl in Hin. apply list_elem_of_singleton in Hin as ->.
  unfold Main.onTimeout.
  set (w0 := with_queue (set_lastTaskTimestamp (Some now)) (clearInterval h' w)).
  assert (Hw0 : in_callback w0).
  { split; [done|]. split; [|by exists h'].
    simpl. rewrite Htm.
    by rewrite filter_cons_False by (simpl; intros H; by apply H). }
  destruct (processNextTask_in_callback now w0 Hw0) as ((Hact2 & Htm2 & _) & Hex2).
  set (w2 := Main.processNextTask prog now w0) in *.
  split.
  - by apply scheduleNext_single_timer.
  - destruct (scheduleNext_frame (jobIntervalMillis (queue w2)) w2)
      as (_ & _ & -> & _).
    exact Hex2.
Qed.

Lemma step_single_timer (w : World) (e : Main.event) :
  single_timer w /\ Forall (fun x => ex_active x = true) (executed w) ->
  single_timer (Main.step prog w e) /\
  Forall (fun x => ex_active x = true) (executed (Main.step prog w e)).
Proof.
  intros [Hw Hex]. destruct e as [c now|h now]; simpl.
  - split; [by apply do_call_single_timer|].
    by rewrite (proj1 (do_call_frame now w c)).
  - destruct (fire_single_timer h now w Hw) as [H1 [->|(x & Hx & ->)]].
    + done.
    + split; [done|]. apply Forall_app. split; [done|]. by apply Forall_singleton.
Qed.

Lemma run_single_timer (es : list Main.event) :
  forall w,
    single_timer w /\ Forall (fun x => ex_active x = true) (executed w) ->
    single_timer (Main.run prog w es) /\
    Forall (fun x => ex_active x = true) (executed (Main.run prog w es)).
Proof.
  induction es as [|e es IH]; intros w Hw; [done|].
  rewrite run_cons. by apply IH, step_single_timer.
Qed.

End NeverStopping.

(** When no function calls [stop()] on the queue it runs in, every
    reachable world of [src/promise-queue-rate-limited.js] has at most one
    outstanding timeout, the one in the handle slot, and none while the
    queue is stopped. *)
Theorem one_timer_unless_task_stops (prog : fnref -> body) (w : World) :
  (forall f, never_stops prog f) ->
  reachable prog w ->
  length (timers w) <= 1 /\
  (isActive (queue w) = false -> timers w = []) /\
  (forall t, t ∈ timers w -> currentTaskTimeoutId (queue w) = Some (handle t)).
Proof.
  intros Hns (r & es & ->).
  destruct (run_single_timer prog Hns es (Main.PromiseQueue_new r)) as [Hst _].
  { split; [done|apply Forall_nil_2]. }
  unfold single_timer in Hst.
  destruct (currentTaskTimeoutId (queue _)) as [h|].
  - destruct Hst as (Hact & d & ->). simpl.
    split; [lia|]. split; [congruence|].
    by intros t ->%list_elem_of_singleton.
  - rewrite Hst. simpl. split; [lia|]. split; [done|].
    by intros t ?%elem_of_nil.
Qed.

(** When no function calls [stop()] on the queue it runs in, every
    execution of a reachable world was made while the queue was active. *)
Theorem active_unless_task_stops (prog : fnref -> body) (w : World) :
  (forall f, never_stops prog f) ->
  reachable prog w ->
  Forall (fun x => ex_active x = true) (executed w).
Proof.
  intros Hns (r & es & ->).
  apply (run_single_timer prog Hns es (Main.PromiseQueue_new r)).
  split; [done|apply Forall_nil_2].
Qed.

Lemma one_timer_unless_task_stops_witness :
  length (timers appended_inside_task) <= 1 /\
  currentTaskTimeoutId (queue appended_inside_task) = Some 2.
Proof.
  assert (Hns : forall f, never_stops appending_first f).
  { intros [|f]; unfold never_stops; simpl; intros H.
    - repeat (apply elem_of_cons in H as [H|H]; [discriminate|]).
      by apply elem_of_nil in H.
    - by apply elem_of_nil in H. }
  assert (Hreach : reachable appending_first appended_inside_task).
  { exists (Some (Fin 1)). eexists. reflexivity. }
  assert (Hin : mkTimer 2 (Fin 1000) ∈ timers appended_inside_task).
  { vm_compute. apply list_elem_of_here. }
  destruct (one_timer_unless_task_stops appending_first appended_inside_task
              Hns Hreach) as (Hle & _ & Hslot).
  split; [exact Hle|exact (Hslot (mkTimer 2 (Fin 1000)) Hin)].
Defined.

Lemma active_unless_task_stops_witness :
  Forall (fun x => ex_active x = true) (executed appended_inside_task).
Proof.
  apply (active_unless_task_stops appending_first appended_inside_task).
  - intros [|f]; unfold never_stops; simpl; intros H.
    + repeat (apply elem_of_cons in H as [H|H]; [discriminate|]).
      by apply elem_of_nil in H.
    + by apply elem_of_nil in H.
  - exists (Some (Fin 1)). eexists. reflexivity.
Defined.

(** * Further properties of the methods *)

(** ** The life cycle *)

(** [start()] returns [true] exactly when the queue was stopped and
    leaves it started; a second [start()] returns [false] and changes
    nothing; [stop()] leaves the queue stopped and a second [stop()]
    changes nothing; [start()] after [stop()] returns [true]. *)
Theorem start_stop_lifecycle (now : Z) (w : World) :
  snd (Main.start now w) = Main.isStopped w /\
  Main.isStarted (fst (Main.start now w)) = true /\
  (forall now' : Z,
      Main.start now' (fst (Main.start now w)) = (fst (Main.start now w), false)) /\
  Main.isStopped (Main.stop w) = true /\
  Main.stop (Main.stop w) = Main.stop w /\
  snd (Main.start now (Main.stop w)) = true.
Proof.
  assert (Hstarted : isActive (queue (fst (Main.start now w))) = true).
  { unfold Main.start. destruct (isActive (queue w)) eqn:Hact; simpl; [done|].
    by rewrite (proj1 (proj2 (proj2 (proj2 (updateTaskSchedule_frame _ _))))). }
  assert (Hstopped : isActive (queue (Main.stop w)) = false).
  { unfold Main.stop. destruct (isActive (queue w)) eqn:Hact; simpl; [|done].
    by destruct (currentTaskTimeoutId (queue w)). }
  split; [|split; [|split; [|split; [|split]]]].
  - unfold Main.start, Main.isStopped, Main.isStarted.
    by destruct (isActive (queue w)).
  - exact Hstarted.
  - intros now'. unfold Main.start at 1. by rewrite Hstarted.
  - unfold Main.isStopped, Main.isStarted. by rewrite Hstopped.
  - unfold Main.stop at 1. by rewrite Hstopped.
  - unfold Main.start. by rewrite Hstopped.
Qed.

(** ** Removing, again *)

Lemma filter_partition_length (f : fnref) (ts : list TaskItem) :
  length (filter (fun it => task it <> f) ts)
  + length (filter (fun it => task it = f) ts) = length ts.
Proof.
  induction ts as [|it ts IH]; [done|].
  rewrite !filter_cons.
  destruct (decide (task it = f)), (decide (task it <> f)); simpl; try done; lia.
Qed.

Lemma filter_other_function (f g : fnref) (ts : list TaskItem) :
  g <> f ->
  filter (fun it => task it = g) (filter (fun it => task it <> f) ts)
  = filter (fun it => task it = g) ts.
Proof.
  intros Hne. induction ts as [|it ts IH]; [done|].
  rewrite !filter_cons.
  destruct (decide (task it <> f)) as [Hd|Hd].
  - rewrite filter_cons. destruct (decide (task it = g)); by rewrite IH.
  - destruct (decide (task it = g)) as [Hg|Hg]; [|done].
    exfalso. apply Hd. congruence.
Qed.

Lemma with_queue_same_tasks (w : World) :
  with_queue (set_tasks (tasks (queue w))) w = w.
Proof. destruct w as [[] ? ? ? ?]. reflexivity. Qed.

(** The number [remove(f)] returns and the size it leaves add up to the
    size before; the items of every other function keep their number and
    order; removing a function that is not queued changes nothing and
    returns zero, and so does removing the same function again. *)
Theorem remove_accounting (f : fnref) (w : World) :
  Main.getQueueSize (fst (Main.remove f w)) + snd (Main.remove f w)
  = Main.getQueueSize w /\
  (forall g : fnref,
      g <> f ->
      filter (fun it => task it = g) (tasks (queue (fst (Main.remove f w))))
      = filter (fun it => task it = g) (tasks (queue w))) /\
  (f ∉ task <$> tasks (queue w) -> Main.remove f w = (w, 0)) /\
  Main.remove f (fst (Main.remove f w)) = (fst (Main.remove f w), 0) /\
  (Main.isEmpty w = true -> Main.isEmpty (fst (Main.remove f w)) = true).
Proof.
  assert (Habsent : forall ts : list TaskItem,
            f ∉ task <$> ts ->
            filter (fun it => task it <> f) ts = ts /\
            filter (fun it => task it = f) ts = []).
  { induction ts as [|it ts IH]; [done|].
    rewrite fmap_cons, not_elem_of_cons. intros [Hne Hts].
    destruct (IH Hts) as [IH1 IH2].
    rewrite (filter_cons_True _ it) by congruence.
    rewrite (filter_cons_False _ it) by congruence.
    by rewrite IH1, IH2. }
  assert (Hgone : f ∉ task <$> filter (fun it => task it <> f) (tasks (queue w))).
  { intros (it & -> & [Hne _]%list_elem_of_filter)%list_elem_of_fmap. by apply Hne. }
  rewrite !remove_filter. simpl.
  split; [|split; [|split; [|split]]].
  - unfold Main.getQueueSize. simpl. apply filter_partition_length.
  - intros g Hg. by apply filter_other_function.
  - intros Hnot. destruct (Habsent _ Hnot) as [-> ->].
    by rewrite with_queue_same_tasks.
  - destruct (Habsent _ Hgone) as [-> ->]. simpl.
    by destruct w as [[] ? ? ? ?].
  - unfold Main.isEmpty. simpl.
    destruct (tasks (queue w)); [done|discriminate].
Qed.

Lemma remove_accounting_witness :
  Main.remove 8 same_task_thrice = (same_task_thrice, 0).
Proof.
  apply (proj1 (proj2 (proj2 (remove_accounting 8 same_task_thrice)))).
  simpl. intros H.
  repeat (apply elem_of_cons in H as [H|H]; [discriminate|]).
  by apply elem_of_nil in H.
Defined.

(** ** Adding, in any state *)

Lemma prepend_head (f : fnref) (now : Z) (w : World) :
  tasks (queue (fst (Main.prepend f now w)))
  = mkItem f (length (promises w)) :: tasks (queue w).
Proof.
  unfold Main.prepend. rewrite (proj1 (add_frame f false now w)).
  rewrite orb_false_r. unfold Main.isEmpty.
  destruct (tasks (queue w)); reflexivity.
Qed.

Lemma append_tail (f : fnref) (now : Z) (w : World) :
  tasks (queue (fst (Main.append f now w)))
  = tasks (queue w) ++ [mkItem f (length (promises w))].
Proof.
  unfold Main.append. rewrite (proj1 (add_frame f true now w)).
  by rewrite orb_true_r.
Qed.

(** Whatever the state of the queue, started or not, empty or not: a
    series of appends queues the functions behind the queued ones in the
    order of the calls, a series of prepends queues them in front in the
    reverse order of the calls, either grows the size by the number of
    calls, and neither executes anything. *)
Theorem add_order (fs : list fnref) (now : Z) (w : World) :
  task <$> tasks (queue (appendAll fs now w)) = (task <$> tasks (queue w)) ++ fs /\
  task <$> tasks (queue (prependAll fs now w))
  = reverse fs ++ (task <$> tasks (queue w)) /\
  Main.getQueueSize (appendAll fs now w) = Main.getQueueSize w + length fs /\
  Main.getQueueSize (prependAll fs now w) = Main.getQueueSize w + length fs /\
  executed (appendAll fs now w) = executed w /\
  executed (prependAll fs now w) = executed w.
Proof.
  assert (Happ : forall w,
    task <$> tasks (queue (appendAll fs now w)) = (task <$> tasks (queue w)) ++ fs /\
    executed (appendAll fs now w) = executed w).
  { induction fs as [|f fs IH]; intros w0.
    - simpl. by rewrite app_nil_r.
    - change (appendAll (f :: fs) now w0)
        with (appendAll fs now (fst (Main.append f now w0))).
      destruct (IH (fst (Main.append f now w0))) as [-> ->].
      rewrite append_tail, fmap_app, <- app_assoc.
      unfold Main.append. by rewrite (proj2 (proj2 (add_frame f true now w0))). }
  assert (Hpre : forall w,
    task <$> tasks (queue (prependAll fs now w))
    = reverse fs ++ (task <$> tasks (queue w)) /\
    executed (prependAll fs now w) = executed w).
  { clear Happ. induction fs as [|f fs IH]; intros w0.
    - done.
    - change (prependAll (f :: fs) now w0)
        with (prependAll fs now (fst (Main.prepend f now w0))).
      destruct (IH (fst (Main.prepend f now w0))) as [-> ->].
      rewrite prepend_head, fmap_cons, reverse_cons, <- app_assoc.
      unfold Main.prepend. by rewrite (proj2 (proj2 (add_frame f false now w0))). }
  destruct (Happ w) as [Ha1 Ha2]. destruct (Hpre w) as [Hp1 Hp2].
  split; [done|]. split; [done|]. split; [|split; [|done]].
  - unfold Main.getQueueSize.
    by rewrite <- (length_fmap task), Ha1, length_app, length_fmap.
  - unfold Main.getQueueSize.
    rewrite <- (length_fmap task), Hp1, length_app, length_reverse, length_fmap.
    lia.
Qed.

(** No method executes a task or settles a promise: whatever method is
    called in whatever state, the executions are the same afterwards and
    every promise that existed keeps its state.  Tasks run in the
    callbacks of timeouts only. *)
Theorem methods_never_execute (now : Z) (w : World) (c : call) :
  executed (Main.do_call now w c) = executed w /\
  (forall (p : nat) (s : PromiseState),
      promises w !! p = Some s -> promises (Main.do_call now w c) !! p = Some s) /\
  length (promises w) <= length (promises (Main.do_call now w c)).
Proof.
  destruct (do_call_frame now w c) as (Hex & [k Hk] & _).
  split; [done|]. split.
  - intros p s Hp. by apply do_call_settled.
  - rewrite Hk, length_app. lia.
Qed.

(** ** The configuration *)

Lemma do_call_config (now : Z) (w : World) (c : call) :
  maxCallsPerSecond (queue (Main.do_call now w c)) = maxCallsPerSecond (queue w) /\
  jobIntervalMillis (queue (Main.do_call now w c)) = jobIntervalMillis (queue w).
Proof.
  assert (Hadd : forall f a,
    maxCallsPerSecond (queue (fst (Main.add f a now w))) = maxCallsPerSecond (queue w) /\
    jobIntervalMillis (queue (fst (Main.add f a now w))) = jobIntervalMillis (queue w)).
  { intros f a. unfold Main.add, newPromise. simpl.
    match goal with
    | |- context [Main.updateTaskSchedule now ?x] =>
        destruct (updateTaskSchedule_frame now x) as (_ & _ & _ & _ & _ & -> & ->)
    end.
    destruct (Main.isEmpty _ || a); done. }
  destruct c as [| |f a|f|f|f]; unfold Main.do_call; try apply Hadd.
  - unfold Main.start. destruct (isActive (queue w)); simpl; [done|].
    destruct (updateTaskSchedule_frame now (with_queue (set_isActive true) w))
      as (_ & _ & _ & _ & _ & -> & ->).
    done.
  - unfold Main.stop. destruct (isActive (queue w)); simpl; [|done].
    by destruct (currentTaskTimeoutId (queue w)).
  - by rewrite remove_filter.
Qed.

Lemma calls_config (now : Z) (cs : list call) :
  forall w,
    maxCallsPerSecond (queue (foldl (Main.do_call now) w cs))
    = maxCallsPerSecond (queue w) /\
    jobIntervalMillis (queue (foldl (Main.do_call now) w cs))
    = jobIntervalMillis (queue w).
Proof.
  induction cs as [|c cs IH]; intros w; simpl; [done|].
  destruct (IH (Main.do_call now w c)) as [-> ->]. apply do_call_config.
Qed.

Lemma step_config (prog : fnref -> body) (w : World) (e : Main.event) :
  maxCallsPerSecond (queue (Main.step prog w e)) = maxCallsPerSecond (queue w) /\
  jobIntervalMillis (queue (Main.step prog w e)) = jobIntervalMillis (queue w).
Proof.
  destruct e as [c now|h now]; simpl; [apply do_call_config|].
  unfold Main.fire. case_bool_decide; [|done].
  unfold Main.onTimeout.
  match goal with
  | |- context [Main.scheduleNext ?d ?x] =>
      destruct (scheduleNext_frame d x) as (_ & _ & _ & _ & _ & -> & ->)
  end.
  unfold Main.processNextTask. simpl.
  destruct (tasks (queue w)) as [|it rest]; [done|].
  rewrite settle_result.
  match goal with |- context [settle ?p ?s ?x] =>
    destruct (settle_frame p s x) as (-> & _)
  end.
  simpl.
  match goal with |- context [foldl (Main.do_call now) ?x ?cs] =>
    destruct (calls_config now cs x) as [-> ->]
  end.
  done.
Qed.

(** The rate and the interval of a queue are those computed by its
    constructor, whatever is done with the queue afterwards. *)
Theorem configuration_is_fixed (prog : fnref -> body) (r : option number)
    (es : list Main.event) :
  Main.getMaxCallsPerSecond (Main.run prog (Main.PromiseQueue_new r) es)
  = Main.getMaxCallsPerSecond (Main.PromiseQueue_new r) /\
  jobIntervalMillis (queue (Main.run prog (Main.PromiseQueue_new r) es))
  = jobIntervalMillis (queue (Main.PromiseQueue_new r)).
Proof.
  unfold Main.getMaxCallsPerSecond.
  generalize (Main.PromiseQueue_new r) as w.
  induction es as [|e es IH]; intros w; [done|].
  rewrite run_cons. destruct (IH (Main.step prog w e)) as [-> ->].
  apply step_config.
Qed.

(** ** Settled promises and executions *)




Section Settlement.

Variable prog : fnref -> body.




End Settlement.



(** ** A queued task always has a wake-up *)

Lemma scheduleNext_awake (d : number) (w : World) :
  awake (Main.scheduleNext d w).
Proof.
  intros _ Hne.
  rewrite (proj1 (scheduleNext_frame d w)) in Hne.
  by rewrite (proj1 (scheduleNext_arms d w Hne)).
Qed.

Lemma updateTaskSchedule_awake (now : Z) (w : World) :
  awake (Main.updateTaskSchedule now w).
Proof.
  unfold Main.updateTaskSchedule.
  destruct (Main.isEmpty w || Main.isStopped w) eqn:Hgate.
  - intros Hact Hne. apply orb_true_iff in Hgate as [He|Hs].
    + by apply isEmpty_nil in He.
    + unfold Main.isStopped, Main.isStarted in Hs. by rewrite Hact in Hs.
  - destruct (currentTaskTimeoutId (queue w)) eqn:Hid.
    + intros _ _. by rewrite Hid.
    + repeat case_match; apply scheduleNext_awake.
Qed.

Lemma do_call_awake (now : Z) (w : World) (c : call) :
  awake w -> awake (Main.do_call now w c).
Proof.
  intros Hw.
  assert (Hadd : forall f a, awake (fst (Main.add f a now w))).
  { intros f a. unfold Main.add, newPromise. simpl. apply updateTaskSchedule_awake. }
  destruct c as [| |f a|f|f|f]; unfold Main.do_call; try apply Hadd.
  - unfold Main.start. destruct (isActive (queue w)); simpl; [done|].
    apply updateTaskSchedule_awake.
  - unfold Main.stop. destruct (isActive (queue w)) eqn:Hact; [|done].
    simpl. destruct (currentTaskTimeoutId (queue w)); by intros ?.
  - rewrite remove_filter. intros Hact Hne. simpl in *.
    apply Hw; [done|]. intros Hnil. by rewrite Hnil in Hne.
Qed.

Lemma run_awake (prog : fnref -> body) (es : list Main.event) :
  forall w, awake w -> awake (Main.run prog w es).
Proof.
  induction es as [|e es IH]; intros w Hw; [done|].
  rewrite run_cons. apply IH.
  destruct e as [c now|h now]; simpl; [by apply do_call_awake|].
  unfold Main.fire. case_bool_decide; [|done].
  apply scheduleNext_awake.
Qed.

(** When no function calls [stop()] on the queue it runs in: in every
    reachable world in which the queue is started and not empty, exactly
    one timeout is outstanding, the one in the handle slot.  (When that
    timeout fires, the head is executed.) *)
Theorem queued_task_has_wakeup (prog : fnref -> body) (w : World) :
  (forall f, never_stops prog f) ->
  reachable prog w ->
  Main.isStarted w = true ->
  Main.isNotEmpty w = true ->
  exists h d, timers w = [mkTimer h d] /\ currentTaskTimeoutId (queue w) = Some h.
Proof.
  intros Hns (r & es & ->) Hact Hne.
  destruct (run_single_timer prog Hns es (Main.PromiseQueue_new r)) as [Hst _].
  { split; [done|apply Forall_nil_2]. }
  assert (Haw : awake (Main.run prog (Main.PromiseQueue_new r) es)).
  { apply run_awake. by intros ?. }
  unfold single_timer in Hst. unfold awake in Haw.
  unfold Main.isNotEmpty in Hne. apply negb_true_iff in Hne.
  destruct (currentTaskTimeoutId (queue _)) as [h|].
  - destruct Hst as (_ & d & ->). eauto.
  - exfalso. apply Haw; [done| |done].
    intros Hnil. apply isEmpty_nil in Hnil. congruence.
Qed.

Lemma queued_task_has_wakeup_witness :
  exists h d, timers appended_inside_task = [mkTimer h d] /\
              currentTaskTimeoutId (queue appended_inside_task) = Some h.
Proof.
  apply (queued_task_has_wakeup appending_first appended_inside_task).
  - intros [|f]; unfold never_stops; simpl; intros H.
    + repeat (apply elem_of_cons in H as [H|H]; [discriminate|]).
      by apply elem_of_nil in H.
    + by apply elem_of_nil in H.
  - exists (Some (Fin 1)). eexists. reflexivity.
  - reflexivity.
  - reflexivity.
Defined.

(** ** The rate limit *)

Lemma inject_Z_sub (a b : Z) : (inject_Z (a - b) == inject_Z a - inject_Z b)%Q.
Proof.
  unfold Z.sub. rewrite inject_Z_plus, inject_Z_opp. reflexivity.
Qed.

(** What [updateTaskSchedule] does to the timeouts: nothing, or, the slot
    being empty, it arms one timeout, due no earlier than one interval
    after the timestamp. *)
Lemma updateTaskSchedule_due (now : Z) (w : World) (q : Q) :
  jobIntervalMillis (queue w) = Fin q ->
  (timers (Main.updateTaskSchedule now w) = timers w /\
   nextHandle (Main.updateTaskSchedule now w) = nextHandle w) \/
  (currentTaskTimeoutId (queue w) = None /\
   exists d,
     timers (Main.updateTaskSchedule now w)
     = timers w ++ [mkTimer (nextHandle w) (Fin d)] /\
     nextHandle (Main.updateTaskSchedule now w) = S (nextHandle w) /\
     forall L, lastTaskTimestamp (queue w) = Some L -> (0 < L <= now)%Z ->
               (inject_Z L + q <= inject_Z now + d)%Q).
Proof.
  intros Hiv. unfold Main.updateTaskSchedule.
  destruct (Main.isEmpty w || Main.isStopped w) eqn:Hgate; [by left|].
  apply orb_false_elim in Hgate as [He _].
  assert (Hne : tasks (queue w) <> []).
  { intros Hnil. apply isEmpty_nil in Hnil. congruence. }
  destruct (currentTaskTimeoutId (queue w)) eqn:Hid; [by left|].
  right. split; [done|]. rewrite Hiv.
  assert (Harm : forall d,
    timers (Main.scheduleNext (Fin d) w) = timers w ++ [mkTimer (nextHandle w) (Fin d)] /\
    nextHandle (Main.scheduleNext (Fin d) w) = S (nextHandle w)).
  { intros d. destruct (scheduleNext_arms (Fin d) w Hne) as (_ & ? & ?). done. }
  destruct (lastTaskTimestamp (queue w)) as [last|].
  - destruct (Z.eqb_spec last 0) as [->|Hlast].
    + exists 0%Q. destruct (Harm 0%Q). split; [done|]. split; [done|].
      intros L [= <-] ?. lia.
    + unfold of_Z, num_gt, num_sub, Math_max, num_zero.
      destruct (Qle_bool (inject_Z (now - last)) q) eqn:Hle; cbn [negb].
      * apply Qle_bool_iff in Hle.
        assert (Hnn : Qle_bool 0 (Qred (q - inject_Z (now - last))) = true).
        { apply Qle_bool_iff. rewrite Qred_correct. lra. }
        unfold num_gt. rewrite Hnn. cbn [negb].
        exists (Qred (q - inject_Z (now - last))).
        destruct (Harm (Qred (q - inject_Z (now - last)))).
        split; [done|]. split; [done|].
        intros L [= <-] _. rewrite Qred_correct, inject_Z_sub. lra.
      * exists q. destruct (Harm q). split; [done|]. split; [done|].
        intros L [= <-] [_ HL]. rewrite Zle_Qle in HL. lra.
  - exists 0%Q. destruct (Harm 0%Q). split; [done|]. split; [done|].
    by intros L ?.
Qed.

(** The same for every method but [stop()], which also keeps the
    timestamp. *)
Lemma do_call_due (now : Z) (w : World) (c : call) (q : Q) :
  c <> Stop ->
  jobIntervalMillis (queue w) = Fin q ->
  lastTaskTimestamp (queue (Main.do_call now w c)) = lastTaskTimestamp (queue w) /\
  ((timers (Main.do_call now w c) = timers w /\
    nextHandle (Main.do_call now w c) = nextHandle w) \/
   (currentTaskTimeoutId (queue w) = None /\
    exists d,
      timers (Main.do_call now w c) = timers w ++ [mkTimer (nextHandle w) (Fin d)] /\
      nextHandle (Main.do_call now w c) = S (nextHandle w) /\
      forall L, lastTaskTimestamp (queue w) = Some L -> (0 < L <= now)%Z ->
                (inject_Z L + q <= inject_Z now + d)%Q)).
Proof.
  intros Hc Hiv.
  assert (Hadd : forall f a,
    lastTaskTimestamp (queue (fst (Main.add f a now w))) = lastTaskTimestamp (queue w) /\
    ((timers (fst (Main.add f a now w)) = timers w /\
      nextHandle (fst (Main.add f a now w)) = nextHandle w) \/
     (currentTaskTimeoutId (queue w) = None /\
      exists d,
        timers (fst (Main.add f a now w)) = timers w ++ [mkTimer (nextHandle w) (Fin d)] /\
        nextHandle (fst (Main.add f a now w)) = S (nextHandle w) /\
        forall L, lastTaskTimestamp (queue w) = Some L -> (0 < L <= now)%Z ->
                  (inject_Z L + q <= inject_Z now + d)%Q))).
  { intros f a. unfold Main.add, newPromise. simpl.
    match goal with
    | |- context [Main.updateTaskSchedule now ?x] =>
        pose proof (updateTaskSchedule_due now x q) as Hdue;
        destruct (updateTaskSchedule_frame now x) as (_ & _ & _ & _ & -> & _)
    end.
    destruct (Main.isEmpty _ || a); (split; [done|]); apply Hdue; exact Hiv. }
  destruct c as [| |f a|f|f|f]; unfold Main.do_call; try apply Hadd.
  - unfold Main.start. destruct (isActive (queue w)); simpl; [by split; [|left]|].
    pose proof (updateTaskSchedule_due now (with_queue (set_isActive true) w) q Hiv)
      as Hdue.
    destruct (updateTaskSchedule_frame now (with_queue (set_isActive true) w))
      as (_ & _ & _ & _ & -> & _).
    split; [done|exact Hdue].
  - done.
  - rewrite remove_filter. simpl. by split; [|left].
Qed.

Lemma spaced_snoc (q : Q) (l : list Execution) (x : Execution) :
  spaced q l ->
  (forall y, y ∈ l -> (inject_Z (ex_time y) + q <= inject_Z (ex_time x))%Q) ->
  spaced q (l ++ [x]).
Proof.
  intros Hl Hx l1 a b l2 Heq.
  destruct l2 as [|z l2 _] using rev_ind.
  - change (l1 ++ [a; b]) with (l1 ++ [a] ++ [b]) in Heq.
    rewrite app_assoc in Heq. apply app_inj_tail in Heq as [-> ->].
    apply Hx. apply elem_of_app. right. apply list_elem_of_here.
  - change (l1 ++ a :: b :: l2 ++ [z]) with (l1 ++ (a :: b :: l2) ++ [z]) in Heq.
    rewrite app_assoc in Heq. apply app_inj_tail in Heq as [-> _].
    by eapply Hl.
Qed.

Section Pacing.

Variable prog : fnref -> body.
Hypothesis prog_never_stops : forall f, never_stops prog f.
Variable q : Q.

Lemma do_call_paced (arm : nat -> Z) (tnow now : Z) (w : World) (c : call) :
  c <> Stop ->
  (tnow <= now)%Z ->
  paced q arm tnow w ->
  paced q (fun h => if decide (nextHandle w <= h) then now else arm h) now
        (Main.do_call now w c).
Proof.
  intros Hc Hclock (Hst & Hiv & Hpos & Hfresh & Hsp & Hlast).
  destruct (do_call_due now w c q Hc Hiv) as [HL Htimers].
  destruct (do_call_frame now w c) as (Hex & _ & _).
  split; [by apply do_call_single_timer|].
  split; [by rewrite (proj2 (do_call_config now w c))|].
  split; [lia|].
  rewrite Hex, HL.
  destruct Htimers as [[Htm Hnh]|(Hid & d & Htm & Hnh & Hdue)]; rewrite Htm, Hnh.
  - split; [done|]. split; [done|].
    destruct (lastTaskTimestamp (queue w)) as [L|]; [|done].
    destruct Hlast as (HLpos & Hexs & Htb).
    split; [lia|]. split; [done|].
    intros t Ht. destruct (Htb t Ht) as (d & Hd & Hb).
    exists d. split; [done|].
    rewrite decide_False by (specialize (Hfresh t Ht); lia). done.
  - unfold single_timer in Hst. rewrite Hid in Hst. rewrite Hst in *. simpl.
    split.
    { intros t ->%list_elem_of_singleton. simpl. lia. }
    split; [done|].
    destruct (lastTaskTimestamp (queue w)) as [L|]; [|done].
    destruct Hlast as (HLpos & Hexs & _).
    split; [lia|]. split; [done|].
    intros t ->%list_elem_of_singleton. exists d. split; [done|]. simpl.
    rewrite decide_True by lia. apply (Hdue L); [done|lia].
Qed.

(** In the callback the calls of a task arm nothing and keep the
    timestamp. *)
Lemma calls_in_callback_frame (now : Z) (cs : list call) :
  Stop ∉ cs ->
  forall w,
    jobIntervalMillis (queue w) = Fin q ->
    in_callback w ->
    in_callback (foldl (Main.do_call now) w cs) /\
    lastTaskTimestamp (queue (foldl (Main.do_call now) w cs))
    = lastTaskTimestamp (queue w) /\
    nextHandle (foldl (Main.do_call now) w cs) = nextHandle w /\
    jobIntervalMillis (queue (foldl (Main.do_call now) w cs)) = Fin q.
Proof.
  induction cs as [|c cs IH]; intros Hcs w Hiv Hw; simpl; [done|].
  apply not_elem_of_cons in Hcs as [Hc Hcs].
  assert (Hc' : c <> Stop) by congruence.
  pose proof (do_call_in_callback now w c Hc' Hw) as Hw'.
  destruct (do_call_due now w c q Hc' Hiv) as [HL Htm].
  assert (Hiv' : jobIntervalMillis (queue (Main.do_call now w c)) = Fin q).
  { by rewrite (proj2 (do_call_config now w c)). }
  destruct (IH Hcs _ Hiv' Hw') as (H1 & H2 & H3 & H4).
  split; [done|]. split; [by rewrite H2|]. split; [|done].
  rewrite H3. destruct Htm as [[_ ?]|(Hid & _)]; [done|].
  destruct Hw as (_ & _ & h & Hh). congruence.
Qed.

Lemma processNextTask_in_callback_time (now : Z) (w : World) :
  jobIntervalMillis (queue w) = Fin q ->
  in_callback w ->
  in_callback (Main.processNextTask prog now w) /\
  lastTaskTimestamp (queue (Main.processNextTask prog now w))
  = lastTaskTimestamp (queue w) /\
  nextHandle (Main.processNextTask prog now w) = nextHandle w /\
  jobIntervalMillis (queue (Main.processNextTask prog now w)) = Fin q /\
  (executed (Main.processNextTask prog now w) = executed w \/
   exists x, ex_time x = now /\
             executed (Main.processNextTask prog now w) = executed w ++ [x]).
Proof.
  intros Hiv Hw. unfold Main.processNextTask.
  destruct (tasks (queue w)) as [|it rest] eqn:Htasks; [by auto 10|].
  rewrite settle_result.
  set (w1 := with_queue (set_tasks rest) w).
  assert (Hw1 : in_callback w1) by exact Hw.
  destruct (calls_in_callback_frame now (calls (prog (task it)))
              (prog_never_stops (task it)) w1 Hiv Hw1) as (H1 & H2 & H3 & H4).
  match goal with |- context [settle ?p ?s ?x] =>
    destruct (settle_frame p s x) as (Hq & Ht & Hn & Hex & _);
    set (w3 := settle p s x) in *
  end.
  unfold in_callback. rewrite Hq, Ht, Hn, Hex. simpl.
  split; [exact H1|]. split; [exact H2|]. split; [exact H3|]. split; [exact H4|].
  right. rewrite calls_executed. eexists. split; [|reflexivity]. reflexivity.
Qed.

Lemma fire_paced (arm : nat -> Z) (tnow now : Z) (w : World) (h : nat) :
  (tnow <= now)%Z ->
  (forall t, t ∈ timers w -> handle t = h ->
             num_ge (of_Z (now - arm h)) (delay t) = true) ->
  paced q arm tnow w ->
  paced q (fun h' => if decide (nextHandle w <= h') then now else arm h') now
        (Main.fire prog h now w).
Proof.
  intros Hclock Hpunct (Hst & Hiv & Hpos & Hfresh & Hsp & Hlast).
  unfold Main.fire. case_bool_decide as Hin.
  2:{ split; [done|]. split; [done|]. split; [lia|]. split; [done|].
      split; [done|].
      destruct (lastTaskTimestamp (queue w)) as [L|]; [|done].
      destruct Hlast as (HLpos & Hexs & Htb).
      split; [lia|]. split; [done|].
      intros t Ht. destruct (Htb t Ht) as (d & Hd & Hb).
      exists d. split; [done|].
      rewrite decide_False by (specialize (Hfresh t Ht); lia). done. }
  unfold single_timer in Hst.
  destruct (currentTaskTimeoutId (queue w)) as [h'|] eqn:Hid;
    [|rewrite Hst in Hin; by apply elem_of_nil in Hin].
  destruct Hst as (Hact & d0 & Htm).
  rewrite Htm in Hin. simpl in Hin. apply list_elem_of_singleton in Hin as ->.
  (* the fired timeout was due one interval after the timestamp *)
  assert (Hdue : forall y, y ∈ executed w ->
                   (inject_Z (ex_time y) + q <= inject_Z now)%Q).
  { intros y Hy.
    destruct (lastTaskTimestamp (queue w)) as [L|];
      [|rewrite Hlast in Hy; by apply elem_of_nil in Hy].
    destruct Hlast as (_ & Hexs & Htb).
    rewrite Forall_forall in Hexs. specialize (Hexs y Hy). rewrite Zle_Qle in Hexs.
    destruct (Htb (mkTimer h' d0)) as (d & Hd & Hb).
    { rewrite Htm. apply list_elem_of_here. }
    specialize (Hpunct (mkTimer h' d0)). rewrite Htm in Hpunct.
    specialize (Hpunct (list_elem_of_here _ _) eq_refl).
    simpl in Hd, Hb, Hpunct. rewrite Hd in Hpunct. simpl in Hpunct.
    apply Qle_bool_iff in Hpunct. rewrite inject_Z_sub in Hpunct. lra. }
  assert (Hold : Forall (fun x => (ex_time x <= now)%Z) (executed w)).
  { destruct (lastTaskTimestamp (queue w)) as [L|]; [|rewrite Hlast; constructor].
    destruct Hlast as (HL & Hexs & _).
    eapply Forall_impl; [exact Hexs|]. intros x Hx. simpl in *. lia. }
  unfold Main.onTimeout.
  set (w0 := with_queue (set_lastTaskTimestamp (Some now)) (clearInterval h' w)).
  assert (Hw0 : in_callback w0).
  { split; [done|]. split; [|by exists h'].
    simpl. rewrite Htm.
    by rewrite filter_cons_False by (simpl; intros H; by apply H). }
  assert (Hiv0 : jobIntervalMillis (queue w0) = Fin q) by done.
  destruct (processNextTask_in_callback_time now w0 Hiv0 Hw0)
    as ((Hact2 & Htm2 & _) & Hlast2 & Hnh2 & Hiv2 & Hex2).
  set (w2 := Main.processNextTask prog now w0) in *.
  change (nextHandle w0) with (nextHandle w) in Hnh2.
  change (lastTaskTimestamp (queue w0)) with (Some now) in Hlast2.
  change (executed w0) with (executed w) in Hex2.
  rewrite Hiv2.
  destruct (scheduleNext_frame (Fin q) w2) as (_ & _ & He & _ & HLs & Hivs & _).
  assert (Htimers' : timers (Main.scheduleNext (Fin q) w2) = []
                     \/ timers (Main.scheduleNext (Fin q) w2)
                        = [mkTimer (nextHandle w) (Fin q)]).
  { destruct (tasks (queue w2)) as [|it rest] eqn:Htasks.
    - left. rewrite (proj1 (proj2 (scheduleNext_idle (Fin q) w2 Htasks))). done.
    - right. destruct (scheduleNext_arms (Fin q) w2) as (_ & -> & _);
        [by rewrite Htasks|].
      by rewrite Htm2, Hnh2. }
  assert (Hnext : nextHandle w <= nextHandle (Main.scheduleNext (Fin q) w2)
                  /\ (timers (Main.scheduleNext (Fin q) w2)
                      = [mkTimer (nextHandle w) (Fin q)] ->
                      nextHandle (Main.scheduleNext (Fin q) w2) = S (nextHandle w))).
  { destruct (tasks (queue w2)) as [|it rest] eqn:Htasks.
    - rewrite (proj2 (proj2 (scheduleNext_idle (Fin q) w2 Htasks))), Hnh2.
      split; [lia|]. intros Habs.
      rewrite (proj1 (proj2 (scheduleNext_idle (Fin q) w2 Htasks))), Htm2 in Habs.
      done.
    - destruct (scheduleNext_arms (Fin q) w2) as (_ & _ & ->); [by rewrite Htasks|].
      rewrite Hnh2. split; [lia|done]. }
  split; [by apply scheduleNext_single_timer|].
  split; [by rewrite Hivs|].
  split; [lia|].
  split.
  { intros t Ht. destruct Htimers' as [Hnone|Hone].
    - rewrite Hnone in Ht. by apply elem_of_nil in Ht.
    - rewrite Hone in Ht. apply list_elem_of_singleton in Ht as ->. simpl.
      rewrite (proj2 Hnext Hone). lia. }
  rewrite He, HLs, Hlast2.
  split.
  { destruct Hex2 as [->|(x & Hx & ->)]; [done|].
    apply spaced_snoc; [done|]. intros y Hy. rewrite Hx. by apply Hdue. }
  split; [lia|]. split.
  { destruct Hex2 as [->|(x & Hx & ->)]; [done|].
    apply Forall_app. split; [done|]. apply Forall_singleton. lia. }
  intros t Ht. destruct Htimers' as [Hnone|Hone].
  - rewrite Hnone in Ht. by apply elem_of_nil in Ht.
  - rewrite Hone in Ht. apply list_elem_of_singleton in Ht as ->. simpl.
    exists q. split; [done|]. rewrite decide_True by lia. lra.
Qed.

Lemma run_paced (es : list Main.event) :
  forall (arm : nat -> Z) (tnow : Z) (w : World),
    paced q arm tnow w ->
    clock_from tnow es ->
    Forall (fun e => is_stop e = false) es ->
    punctual prog arm w es ->
    spaced q (executed (Main.run prog w es)).
Proof.
  induction es as [|e es IH]; intros arm tnow w Hw Hclock Hns Hp.
  - apply Hw.
  - destruct Hclock as [Ht Hclock]. destruct Hp as [Hp1 Hp].
    apply Forall_cons in Hns as [He Hns].
    rewrite run_cons.
    refine (IH _ (time_of e) _ _ Hclock Hns Hp).
    destruct e as [c now|h now]; simpl in *.
    + apply (do_call_paced arm tnow); [|done|done]. intros ->. discriminate.
    + by apply (fire_paced arm tnow).
Qed.

End Pacing.

(** The rate limit.  Take a queue with a finite interval [q]; tasks that
    never call [stop()] on it and a caller that never does; a clock that is
    positive and does not run backwards; and a host that fires a timeout no
    earlier than its delay after arming it.  Then any two consecutive
    executions are at least [q] milliseconds apart. *)
Theorem rate_limit (prog : fnref -> body) (r : option number) (q : Q) (t0 : Z)
    (es : list Main.event) :
  (forall f, never_stops prog f) ->
  jobIntervalMillis (queue (Main.PromiseQueue_new r)) = Fin q ->
  (0 < t0)%Z ->
  clock_from t0 es ->
  Forall (fun e => is_stop e = false) es ->
  punctual prog (fun _ => t0) (Main.PromiseQueue_new r) es ->
  spaced q (executed (Main.run prog (Main.PromiseQueue_new r) es)).
Proof.
  intros Hns Hiv Hpos Hclock Hstop Hp.
  apply (run_paced prog Hns q es (fun _ => t0) t0); try done.
  split; [done|]. split; [done|]. split; [done|].
  split; [by intros t ?%elem_of_nil|].
  split; [|done].
  intros l1 x y l2 Heq. simpl in Heq. by destruct l1.
Qed.

Lemma rate_limit_witness :
  spaced 200
    (executed
       (Main.run returning (Main.PromiseQueue_new (Some (Fin 5)))
          [Main.Call Start 1000%Z; Main.Call (Append 0) 1000%Z;
           Main.Call (Append 1) 1010%Z; Main.Fire 1 1020%Z;
           Main.Fire 2 1220%Z])).
Proof.
  apply (rate_limit returning (Some (Fin 5)) 200 1000%Z).
  - intros f. unfold never_stops. simpl. by intros ?%elem_of_nil.
  - reflexivity.
  - lia.
  - simpl. lia.
  - repeat constructor.
  - simpl. repeat split.
    + intros t Ht Hh. vm_compute in Ht.
      apply list_elem_of_singleton in Ht as ->. reflexivity.
    + intros t Ht Hh. vm_compute in Ht.
      apply list_elem_of_singleton in Ht as ->. reflexivity.
Defined.

(** ** Removing every item *)

(** When every queued item holds the function [f] (the queue of the
    repository's removal test), [remove(f)] returns the size of the queue
    and leaves it empty. *)
Theorem remove_all_of_one_function (f : fnref) (w : World) :
  Forall (fun it => task it = f) (tasks (queue w)) ->
  snd (Main.remove f w) = Main.getQueueSize w /\
  Main.isEmpty (fst (Main.remove f w)) = true.
Proof.
  intros Hall. rewrite remove_filter. simpl.
  assert (Hf : filter (fun it => task it <> f) (tasks (queue w)) = [] /\
               filter (fun it => task it = f) (tasks (queue w)) = tasks (queue w)).
  { induction Hall as [|it ts Hit _ [IH1 IH2]]; [done|].
    rewrite (filter_cons_False _ it) by (intros H; by apply H).
    rewrite (filter_cons_True _ it) by done.
    by rewrite IH1, IH2. }
  destruct Hf as [Hf1 Hf2]. rewrite Hf2. split; [done|].
  unfold Main.isEmpty. simpl. by rewrite Hf1.
Qed.

Lemma remove_all_of_one_function_witness :
  snd (Main.remove 4 (prependAll [4; 4; 4] 0%Z (Main.PromiseQueue_new None))) = 3 /\
  Main.isEmpty
    (fst (Main.remove 4 (prependAll [4; 4; 4] 0%Z (Main.PromiseQueue_new None))))
  = true.
Proof.
  apply (remove_all_of_one_function 4
           (prependAll [4; 4; 4] 0%Z (Main.PromiseQueue_new None))).
  repeat constructor.
Defined.

(** ** A prepended task runs next *)



(** * The other variant *)

(** ** A task appended to an idle started queue runs at once *)



(** ** A queue filled before [start()] stalls *)

Lemma legacy_settle_frame (p : nat) (s : PromiseState) (w : World) :
  queue (settle p s w) = queue w /\ timers (settle p s w) = timers w /\
  nextHandle (settle p s w) = nextHandle w /\ executed (settle p s w) = executed w.
Proof. destruct (settle_frame p s w) as (? & ? & ? & ? & _). done. Qed.

(** What [processNextTask] of the other variant does to a queue with a
    head: the head is taken off and recorded; the timeouts, the flag and
    the slot stay. *)
Lemma legacy_processNextTask_head (behaviour : fnref -> outcome) (now : Z)
    (w : World) (it : TaskItem) (rest : list TaskItem) :
  tasks (queue w) = it :: rest ->
  tasks (queue (Legacy.processNextTask behaviour now w)) = rest /\
  timers (Legacy.processNextTask behaviour now w) = timers w /\
  nextHandle (Legacy.processNextTask behaviour now w) = nextHandle w /\
  isActive (queue (Legacy.processNextTask behaviour now w)) = isActive (queue w) /\
  jobIntervalMillis (queue (Legacy.processNextTask behaviour now w))
  = jobIntervalMillis (queue w) /\
  ex_task <$> executed (Legacy.processNextTask behaviour now w)
  = (ex_task <$> executed w) ++ [task it].
Proof.
  intros Htasks. unfold Legacy.processNextTask. rewrite Htasks.
  destruct (behaviour (task it)) as [v|e]; unfold resolve, reject;
    match goal with |- context [settle ?p ?s ?x] =>
      destruct (legacy_settle_frame p s x) as (-> & -> & -> & ->)
    end; simpl; by rewrite fmap_app.
Qed.

(** In the other variant the callback of a timeout arms nothing.  So when
    a stopped queue holding at least two items, with no timeout
    outstanding and no timestamp, is started, [start()] runs the first
    item and arms one timeout; when that fires the second item runs; and
    then the queue is started, holds the remaining items, and has no
    timeout outstanding: the remaining items wait until something is
    added. *)
Theorem legacy_prefilled_queue_stalls (behaviour : fnref -> outcome)
    (t1 t2 : Z) (w : World) (it1 it2 : TaskItem) (rest : list TaskItem) :
  isActive (queue w) = false ->
  tasks (queue w) = it1 :: it2 :: rest ->
  timers w = [] ->
  lastTaskTimestamp (queue w) = None ->
  let w1 := fst (Legacy.start behaviour t1 w) in
  let w2 := Legacy.fire behaviour (nextHandle w) t2 w1 in
  timers w1 = [mkTimer (nextHandle w) (jobIntervalMillis (queue w))] /\
  ex_task <$> executed w2 = (ex_task <$> executed w) ++ [task it1; task it2] /\
  tasks (queue w2) = rest /\
  isActive (queue w2) = true /\
  timers w2 = [].
Proof.
  intros Hact Htasks Htm Hlast. simpl.
  unfold Legacy.start. rewrite Hact. cbn [fst].
  set (w0 := with_queue (set_isActive true) w).
  assert (Htasks0 : tasks (queue w0) = it1 :: it2 :: rest) by done.
  assert (Hupd : Legacy.updateTaskSchedule behaviour t1 w0
                 = Legacy.scheduleNext None (Legacy.processNextTask behaviour t1 w0)).
  { unfold Legacy.updateTaskSchedule, Legacy.isEmpty, Legacy.isStopped,
      Legacy.isStarted. rewrite Htasks0. simpl. by rewrite Hlast. }
  rewrite Hupd. clear Hupd.
  destruct (legacy_processNextTask_head behaviour t1 w0 it1 (it2 :: rest) Htasks0)
    as (Ht & Htm1 & Hn & Ha & Hiv & Hex).
  change (timers w0) with (timers w) in Htm1.
  change (nextHandle w0) with (nextHandle w) in Hn.
  change (isActive (queue w0)) with true in Ha.
  change (jobIntervalMillis (queue w0)) with (jobIntervalMillis (queue w)) in Hiv.
  change (executed w0) with (executed w) in Hex.
  generalize dependent (Legacy.processNextTask behaviour t1 w0). intros wa.
  intros Ht Htm1 Hn Ha Hiv Hex. clear w0 Htasks0.
  assert (Hs : Legacy.scheduleNext None wa
               = mkWorld (set_currentTaskTimeoutId (Some (nextHandle w)) (queue wa))
                   [mkTimer (nextHandle w) (jobIntervalMillis (queue w))]
                   (S (nextHandle w)) (promises wa) (executed wa)).
  { unfold Legacy.scheduleNext, Legacy.isEmpty, Legacy.timeoutMillis, setTimeout,
      with_queue.
    rewrite Ht, Hiv, Hn, Htm1, Htm. reflexivity. }
  rewrite Hs. clear Hs. cbn [timers].
  split; [done|].
  unfold Legacy.fire. cbn [timers fmap list_fmap handle].
  rewrite bool_decide_eq_true_2 by apply list_elem_of_here.
  unfold Legacy.onTimeout, clearInterval. cbn [timers queue nextHandle promises executed].
  rewrite filter_cons_False by (simpl; intros H; by apply H).
  rewrite filter_nil.
  match goal with
  | |- context [Legacy.processNextTask behaviour t2 ?x] => set (wb := x)
  end.
  assert (Htasksb : tasks (queue wb) = it2 :: rest) by done.
  destruct (legacy_processNextTask_head behaviour t2 wb it2 rest Htasksb)
    as (Ht2 & Htm2 & _ & Ha2 & _ & Hex2).
  change (timers wb) with (@nil Timer) in Htm2.
  change (isActive (queue wb)) with (isActive (queue wa)) in Ha2.
  change (executed wb) with (executed wa) in Hex2.
  generalize dependent (Legacy.processNextTask behaviour t2 wb). intros wc.
  intros Ht2 Htm2 Ha2 Hex2.
  unfold with_queue. cbn [timers queue executed tasks isActive set_lastTaskTimestamp].
  rewrite Ht2, Htm2, Ha2, Hex2, Ha, Hex, <- app_assoc. done.
Qed.

Lemma legacy_prefilled_queue_stalls_witness :
  let w2 := Legacy.fire (fun f => result (returning f)) 1 6000%Z
              (fst (Legacy.start (fun f => result (returning f)) 5000%Z
                      legacy_three_queued)) in
  tasks (queue w2) = [mkItem 12 2] /\
  isActive (queue w2) = true /\
  timers w2 = [].
Proof.
  destruct (legacy_prefilled_queue_stalls (fun f => result (returning f))
              5000%Z 6000%Z legacy_three_queued (mkItem 10 0) (mkItem 11 1)
              [mkItem 12 2] eq_refl eq_refl eq_refl eq_refl)
    as (_ & _ & Ht & Ha & Htm).
  split; [exact Ht|]. split; [exact Ha|exact Htm].
Defined.

(** ** The wait of the other variant *)

(** In the other variant, on a started empty queue whose last execution
    was no longer than one interval ago, [append] executes nothing and arms
    a timeout: for what is left of the interval when something is left,
    and for a whole interval more when exactly one interval has passed
    (a delay of zero is replaced by the interval). *)
Theorem legacy_append_waits (behaviour : fnref -> outcome) (f : fnref)
    (now L : Z) (q : Q) (w : World) :
  isActive (queue w) = true ->
  tasks (queue w) = [] ->
  lastTaskTimestamp (queue w) = Some L ->
  jobIntervalMillis (queue w) = Fin q ->
  (inject_Z (now - L) <= q)%Q ->
  let w' := fst (Legacy.append behaviour f now w) in
  executed w' = executed w /\
  task <$> tasks (queue w') = [f] /\
  exists d : Q,
    timers w' = timers w ++ [mkTimer (nextHandle w) (Fin d)] /\
    ((inject_Z (now - L) < q)%Q -> (d == q - inject_Z (now - L))%Q) /\
    ((inject_Z (now - L) == q)%Q -> d = q).
Proof.
  intros Hact Hnil Hlast Hiv Hle. simpl.
  unfold Legacy.append, Legacy.add, newPromise. rewrite orb_true_r.
  cbv beta iota zeta. cbn [fst snd].
  set (item := mkItem f (length (promises w))).
  set (w2 := with_queue (fun q => set_tasks (tasks q ++ [item]) q) _).
  assert (Ht2 : tasks (queue w2) = [item]) by (subst w2; simpl; by rewrite Hnil).
  assert (Ha2 : isActive (queue w2) = true) by done.
  assert (Hl2 : lastTaskTimestamp (queue w2) = Some L) by done.
  assert (Hi2 : jobIntervalMillis (queue w2) = Fin q) by done.
  assert (He2 : executed w2 = executed w) by done.
  assert (Htm2 : timers w2 = timers w) by done.
  assert (Hn2 : nextHandle w2 = nextHandle w) by done.
  clearbody w2.
  assert (Hupd : Legacy.updateTaskSchedule behaviour now w2
                 = Legacy.scheduleNext
                     (Some (Fin (Qred (q - inject_Z (now - L))))) w2).
  { unfold Legacy.updateTaskSchedule, Legacy.isEmpty, Legacy.isStopped,
      Legacy.isStarted. rewrite Ht2, Ha2, Hl2, Hi2. cbn [length Nat.eqb negb orb].
    unfold of_Z, num_gt, num_sub.
    apply Qle_bool_iff in Hle. rewrite Hle. reflexivity. }
  rewrite Hupd. clear Hupd.
  unfold Legacy.scheduleNext, Legacy.isEmpty, Legacy.timeoutMillis, setTimeout,
    with_queue.
  rewrite Ht2, Hi2, Htm2, Hn2, He2. cbn [length Nat.eqb].
  unfold num_gt, num_zero.
  destruct (Qle_bool (Qred (q - inject_Z (now - L))) 0) eqn:Hz; simpl.
  - split; [done|]. split; [by rewrite Ht2|]. exists q. split; [done|].
    apply Qle_bool_iff in Hz. rewrite Qred_correct in Hz.
    split; [intros Hlt; lra|done].
  - split; [done|]. split; [by rewrite Ht2|].
    exists (Qred (q - inject_Z (now - L))). split; [done|].
    split; [intros _; apply Qred_correct|].
    intros Heq. exfalso.
    assert (Hz' : Qle_bool (Qred (q - inject_Z (now - L))) 0 = true).
    { apply Qle_bool_iff. rewrite Qred_correct. lra. }
    congruence.
Qed.

Lemma legacy_append_waits_witness :
  exists d : Q,
    timers (fst (Legacy.append (fun f => result (returning f)) 8 6000%Z
                   (fst (Legacy.append (fun f => result (returning f)) 7 5000%Z
                           legacy_started))))
    = [mkTimer 1 (Fin d)] /\ d = 1000%Q.
Proof.
  destruct (legacy_append_waits (fun f => result (returning f)) 8 6000%Z 5000%Z 1000%Q
              (fst (Legacy.append (fun f => result (returning f)) 7 5000%Z
                      legacy_started))
              eq_refl eq_refl eq_refl eq_refl ltac:(vm_compute; discriminate))
    as (_ & _ & d & Htm & _ & Heq).
  exists d. split; [exact Htm|]. apply Heq. reflexivity.
Defined.
